(** * Recent-location registry and window-open routing of SimpleWindowService

    A shallow embedding of [SimpleWindowService] (the browser window service
    of the workbench): the recently-opened history kept in the storage
    service under the key ['recently.opened'], and the routing of
    [openWindow] requests to a new or to the current browser window.

    Layout: the JavaScript data the service handles (strings, JSON text and
    values), the collaborators as an explicit world, the service's methods,
    and then the properties proved about them. *)

From Stdlib Require Import NArith List String Ascii Bool Arith Lia Permutation.
Import ListNotations.

(** ** JavaScript strings

    A JavaScript string is a sequence of UTF-16 code units.  A code unit is
    kept as an [N]; [===] on strings is equality of the two sequences. *)

Module JS.

Abbreviation char16 := N (only parsing).
Abbreviation jsstring := (list N) (only parsing).

(** The string a literal of the source denotes (literals here are ASCII). *)
Fixpoint js (s : string) : jsstring :=
  match s with
  | EmptyString => []
  | String c r => N_of_ascii c :: js r
  end.

(** [a === b] on strings. *)
Fixpoint streq (a b : jsstring) : bool :=
  match a, b with
  | [], [] => true
  | x :: a', y :: b' => N.eqb x y && streq a' b'
  | _, _ => false
  end.

(** Truthiness of a value that is a string or [undefined]: [undefined] and
    the empty string are falsy. *)
Definition truthy (v : option jsstring) : bool :=
  match v with
  | None => false
  | Some [] => false
  | Some (_ :: _) => true
  end.

(** Truthiness of a value that is a boolean or [undefined]. *)
Definition truthy_bool (v : option bool) : bool :=
  match v with
  | Some true => true
  | _ => false
  end.

End JS.

Import JS.

(** ** JSON values, [JSON.stringify] and [JSON.parse]

    The storage service holds text; the service writes it with
    [JSON.stringify] and reads it with [JSON.parse].  Both are modelled on
    the JSON grammar (ECMA-404).  A number keeps the text it was written
    with: nothing in the service computes with one. *)

Module Json.

Open Scope N_scope.

#[local] Unset Elimination Schemes.

Inductive JSON : Type :=
| JNull
| JBool (b : bool)
| JNumber (lexeme : jsstring)
| JString (s : jsstring)
| JArray (elements : list JSON)
| JObject (members : list (jsstring * JSON)).

#[local] Set Elimination Schemes.

(** *** [JSON.stringify] *)

Definition hex_digit (n : N) : char16 :=
  if n <? 10 then 48 + n else 87 + n.

(** One code unit of a string inside its quotes.  The quote, the backslash
    and the control characters are escaped; a lone surrogate is written as
    it is (engines that follow ES2019 write it as a [\u] escape, which
    [JSON.parse] reads back to the same code unit). *)
Definition quote_char (c : char16) : jsstring :=
  if c =? 34 then [92; 34]
  else if c =? 92 then [92; 92]
  else if c =? 8 then [92; 98]
  else if c =? 12 then [92; 102]
  else if c =? 10 then [92; 110]
  else if c =? 13 then [92; 114]
  else if c =? 9 then [92; 116]
  else if c <? 32 then [92; 117; 48; 48; hex_digit (c / 16); hex_digit (c mod 16)]
  else [c].

Definition quote (s : jsstring) : jsstring :=
  34 :: flat_map quote_char s ++ [34].

(** The texts of the elements of an array or of the members of an object,
    with a comma between two of them. *)
Fixpoint join (l : list jsstring) : jsstring :=
  match l with
  | [] => []
  | [x] => x
  | x :: l' => x ++ 44 :: join l'
  end.

(** [JSON.stringify(v)] with no indentation. *)
Fixpoint stringify (v : JSON) : jsstring :=
  match v with
  | JNull => js "null"
  | JBool true => js "true"
  | JBool false => js "false"
  | JNumber lexeme => lexeme
  | JString s => quote s
  | JArray l => 91 :: join (map stringify l) ++ [93]
  | JObject l =>
      123 :: join (map (fun m => quote (fst m) ++ 58 :: stringify (snd m)) l) ++ [125]
  end.

(** *** [JSON.parse] *)

Definition is_ws (c : char16) : bool :=
  (c =? 32) || (c =? 9) || (c =? 10) || (c =? 13).

Fixpoint skip_ws (s : jsstring) : jsstring :=
  match s with
  | c :: r => if is_ws c then skip_ws r else s
  | [] => []
  end.

Definition is_digit (c : char16) : bool := (48 <=? c) && (c <=? 57).

Definition hex_value (c : char16) : option N :=
  if (48 <=? c) && (c <=? 57) then Some (c - 48)
  else if (97 <=? c) && (c <=? 102) then Some (c - 87)
  else if (65 <=? c) && (c <=? 70) then Some (c - 55)
  else None.

Definition hex4 (a b c d : char16) : option char16 :=
  match hex_value a, hex_value b, hex_value c, hex_value d with
  | Some x, Some y, Some z, Some w => Some (((x * 16 + y) * 16 + z) * 16 + w)
  | _, _, _, _ => None
  end.

(** The character after a backslash, [u] apart. *)
Definition unescape (e : char16) : option char16 :=
  if e =? 34 then Some 34
  else if e =? 92 then Some 92
  else if e =? 47 then Some 47
  else if e =? 98 then Some 8
  else if e =? 102 then Some 12
  else if e =? 110 then Some 10
  else if e =? 114 then Some 13
  else if e =? 116 then Some 9
  else None.

Definition consfst {A : Type} (c : char16) (r : option (jsstring * A)) :
    option (jsstring * A) :=
  match r with
  | Some (s, rest) => Some (c :: s, rest)
  | None => None
  end.

(** The characters of a string, from after its opening quote to its closing
    quote; the second component is the text that follows. *)
Fixpoint parse_chars (s : jsstring) : option (jsstring * jsstring) :=
  match s with
  | [] => None
  | c :: r =>
      if c =? 34 then Some ([], r)
      else if c =? 92 then
        match r with
        | [] => None
        | e :: r1 =>
            if e =? 117 then
              match r1 with
              | a :: b :: c' :: d :: r2 =>
                  match hex4 a b c' d with
                  | Some u => consfst u (parse_chars r2)
                  | None => None
                  end
              | _ => None
              end
            else
              match unescape e with
              | Some u => consfst u (parse_chars r1)
              | None => None
              end
        end
      else if c <? 32 then None
      else consfst c (parse_chars r)
  end.

(** The longest run of digits at the front of the text. *)
Fixpoint digits (s : jsstring) : jsstring * jsstring :=
  match s with
  | c :: r => if is_digit c then let (ds, rest) := digits r in (c :: ds, rest)
              else ([], s)
  | [] => ([], [])
  end.

(** One or more digits. *)
Definition digits1 (s : jsstring) : option (jsstring * jsstring) :=
  match digits s with
  | ([], _) => None
  | (ds, rest) => Some (ds, rest)
  end.

(** The first character when it is one of those [p] accepts. *)
Definition optional (p : char16 -> bool) (s : jsstring) : jsstring * jsstring :=
  match s with
  | c :: r => if p c then ([c], r) else ([], s)
  | [] => ([], [])
  end.

(** The exponent of a number, if there is one: [e] or [E], an optional sign
    and one or more digits.  [acc] is the text of the number so far. *)
Definition number_exponent (acc s : jsstring) : option (jsstring * jsstring) :=
  match s with
  | e :: r =>
      if (e =? 101) || (e =? 69) then
        let (sg, r1) := optional (fun g => (g =? 43) || (g =? 45)) r in
        match digits1 r1 with
        | Some (ds, r2) => Some (acc ++ e :: sg ++ ds, r2)
        | None => None
        end
      else Some (acc, s)
  | [] => Some (acc, s)
  end.

(** The fraction of a number, if there is one: a point and one or more
    digits; the exponent follows. *)
Definition number_fraction (acc s : jsstring) : option (jsstring * jsstring) :=
  match s with
  | c :: r =>
      if c =? 46 then
        match digits1 r with
        | Some (ds, r1) => number_exponent (acc ++ 46 :: ds) r1
        | None => None
        end
      else number_exponent acc s
  | [] => number_exponent acc s
  end.

(** A number: an optional minus sign; a zero, or a digit from 1 to 9 and
    then any digits; then the fraction and the exponent.  The result is the
    text of the number and the text that follows it. *)
Definition parse_number (s : jsstring) : option (jsstring * jsstring) :=
  let (sign, s1) := optional (fun c => c =? 45) s in
  match s1 with
  | c :: r =>
      if c =? 48 then number_fraction (sign ++ [48]) r
      else if is_digit c then
        let (ds, r1) := digits r in number_fraction (sign ++ c :: ds) r1
      else None
  | [] => None
  end.

(** The text after the word [lit], when the text starts with it. *)
Fixpoint strip (lit s : jsstring) : option jsstring :=
  match lit with
  | [] => Some s
  | x :: lit' =>
      match s with
      | y :: s' => if x =? y then strip lit' s' else None
      | [] => None
      end
  end.

(** The text after the character [c], when the text starts with it. *)
Definition after (c : char16) (s : jsstring) : option jsstring :=
  match s with
  | x :: r => if x =? c then Some r else None
  | [] => None
  end.

(** A value, the elements of an array after its [[] and the members of an
    object after its [{].  Every call passes on less fuel; [parse] gives
    enough of it for the whole text. *)
Fixpoint parse_value (fuel : nat) (s : jsstring) : option (JSON * jsstring) :=
  match fuel with
  | O => None
  | S fuel' =>
      match skip_ws s with
      | [] => None
      | c :: r =>
          if c =? 123 then
            match after 125 (skip_ws r) with
            | Some r' => Some (JObject [], r')
            | None =>
                match parse_members fuel' r with
                | Some (l, r') => Some (JObject l, r')
                | None => None
                end
            end
          else if c =? 91 then
            match after 93 (skip_ws r) with
            | Some r' => Some (JArray [], r')
            | None =>
                match parse_elements fuel' r with
                | Some (l, r') => Some (JArray l, r')
                | None => None
                end
            end
          else if c =? 34 then
            match parse_chars r with
            | Some (str, r') => Some (JString str, r')
            | None => None
            end
          else if c =? 116 then
            match strip (js "rue") r with
            | Some r' => Some (JBool true, r')
            | None => None
            end
          else if c =? 102 then
            match strip (js "alse") r with
            | Some r' => Some (JBool false, r')
            | None => None
            end
          else if c =? 110 then
            match strip (js "ull") r with
            | Some r' => Some (JNull, r')
            | None => None
            end
          else
            match parse_number (c :: r) with
            | Some (lexeme, r') => Some (JNumber lexeme, r')
            | None => None
            end
      end
  end

with parse_elements (fuel : nat) (s : jsstring) : option (list JSON * jsstring) :=
  match fuel with
  | O => None
  | S fuel' =>
      match parse_value fuel' s with
      | None => None
      | Some (v, r) =>
          match skip_ws r with
          | c :: r' =>
              if c =? 44 then
                match parse_elements fuel' r' with
                | Some (l, r'') => Some (v :: l, r'')
                | None => None
                end
              else if c =? 93 then Some ([v], r')
              else None
          | [] => None
          end
      end
  end

with parse_members (fuel : nat) (s : jsstring) :
    option (list (jsstring * JSON) * jsstring) :=
  match fuel with
  | O => None
  | S fuel' =>
      match after 34 (skip_ws s) with
      | None => None
      | Some r =>
          match parse_chars r with
          | None => None
          | Some (k, r1) =>
              match after 58 (skip_ws r1) with
              | None => None
              | Some r2 =>
                  match parse_value fuel' r2 with
                  | None => None
                  | Some (v, r3) =>
                      match skip_ws r3 with
                      | c :: r4 =>
                          if c =? 44 then
                            match parse_members fuel' r4 with
                            | Some (l, r5) => Some ((k, v) :: l, r5)
                            | None => None
                            end
                          else if c =? 125 then Some ([(k, v)], r4)
                          else None
                      | [] => None
                      end
                  end
              end
          end
      end
  end.

(** [JSON.parse(text)]: one value, with nothing but white space after it;
    [None] stands for the [SyntaxError] it throws. *)
Definition parse (text : jsstring) : option JSON :=
  match parse_value (2 * List.length text + 2)%nat text with
  | Some (v, r) => match skip_ws r with
                   | [] => Some v
                   | _ :: _ => None
                   end
  | None => None
  end.

(** [v[k]] on a parsed value: the member of that name when [v] is an object
    ([JSON.parse] keeps the last of several members of one name), and
    [undefined] otherwise. *)
Fixpoint lookup (k : jsstring) (l : list (jsstring * JSON)) : option JSON :=
  match l with
  | [] => None
  | (k', v) :: l' =>
      match lookup k l' with
      | Some v' => Some v'
      | None => if streq k k' then Some v else None
      end
  end.

Definition get (v : JSON) (k : jsstring) : option JSON :=
  match v with
  | JObject l => lookup k l
  | _ => None
  end.

Close Scope N_scope.

End Json.

Import Json.

(** ** Window-open routing: options and configuration *)

(** [IOpenSettings]: both flags are optional booleans. *)
Record IOpenSettings := mkOpenSettings {
  forceNewWindow : option bool;
  forceReuseWindow : option bool
}.

(** The [{}] that [shouldOpenNewWindow] takes when no options are given. *)
Definition noOptions : IOpenSettings := mkOpenSettings None None.

(** [IWindowSettings]: the ['window'] section of the configuration; the
    setting is a string, declared as ['on' | 'off' | 'default'], and may be
    missing. *)
Record IWindowSettings := mkWindowSettings {
  openFoldersInNewWindow : option jsstring
}.

(** [shouldOpenNewWindow], on the value [configurationService.getValue]
    returned for ['window'] ([None] when the section is undefined). *)
Definition shouldOpenNewWindow (windowConfig : option IWindowSettings)
    (_options : option IOpenSettings) : bool :=
  let _options := match _options with Some o => o | None => noOptions end in
  let openFolderInNewWindowConfig :=
    let v := match windowConfig with
             | Some c => openFoldersInNewWindow c
             | None => None
             end in
    if truthy v then match v with Some s => s | None => js "default" end
    else js "default" in
  let openFolderInNewWindow :=
    truthy_bool (forceNewWindow _options)
    && negb (truthy_bool (forceReuseWindow _options)) in
  if negb (truthy_bool (forceNewWindow _options))
     && negb (truthy_bool (forceReuseWindow _options))
     && (streq openFolderInNewWindowConfig (js "on")
         || streq openFolderInNewWindowConfig (js "off"))
  then streq openFolderInNewWindowConfig (js "on")
  else openFolderInNewWindow.

(** ** Locations and recent entries *)

(** Modelled from the spec: [vs/base/common/uri] is not among the sources.
    A location is its normalized string form, the text [toString()] returns
    and [URI.parse] reads; two locations are the same when these strings
    are equal, code unit by code unit. *)
Record URI := mkURI { toString : jsstring }.

(** Modelled from the spec: [URI.parse] of [vs/base/common/uri], on the
    normalized string of a location. *)
Definition URI_parse (s : jsstring) : URI := mkURI s.

(** Modelled from the spec: [IRecentFile] of
    [vs/platform/history/common/history], which is not among the sources: a
    recent file, with the location of the file. *)
Record IRecentFile := RecentFile { fileUri : URI }.

(** Modelled from the spec: [IRecentFolder | IRecentWorkspace] of
    [vs/platform/history/common/history], what the [workspaces] list holds:
    a folder with its location, or a workspace with its id and the
    location of its configuration.  [isRecentFolder] is the match on it. *)
Inductive IRecentPlace : Type :=
| RecentFolder (folderUri : URI)
| RecentWorkspace (id : jsstring) (configPath : URI).

(** Modelled from the spec: [IRecent] of
    [vs/platform/history/common/history], an entry of any of the three
    kinds.  [isRecentFile] is the match on it. *)
Inductive IRecent : Type :=
| OfFile (file : IRecentFile)
| OfPlace (place : IRecentPlace).

(** Modelled from the spec: [IRecentlyOpened] of
    [vs/platform/history/common/history], the two lists of the history,
    the most recent entry first. *)
Record IRecentlyOpened := mkRecentlyOpened {
  workspaces : list IRecentPlace;
  files : list IRecentFile
}.

(** The location an entry is compared by: [folderUri], or
    [workspace.configPath]. *)
Definition placeUri (w : IRecentPlace) : URI :=
  match w with
  | RecentFolder folderUri => folderUri
  | RecentWorkspace _ configPath => configPath
  end.

Definition recentUri (r : IRecent) : URI :=
  match r with
  | OfFile f => fileUri f
  | OfPlace w => placeUri w
  end.

(** ** The persistence codec *)

(** Modelled from the spec: the serialized form of a file, [{ fileUri }],
    the location as its string; part of [toStoreData] of
    [vs/platform/history/common/historyStorage], which is not among the
    sources. *)
Definition fileToStoreData (f : IRecentFile) : JSON :=
  JObject [(js "fileUri", JString (toString (fileUri f)))].

(** Modelled from the spec: the serialized form of a folder,
    [{ folderUri }], and of a workspace,
    [{ workspace: { id, configPath } }]; part of [toStoreData]. *)
Definition placeToStoreData (w : IRecentPlace) : JSON :=
  match w with
  | RecentFolder folderUri =>
      JObject [(js "folderUri", JString (toString folderUri))]
  | RecentWorkspace id configPath =>
      JObject [(js "workspace",
                JObject [(js "id", JString id);
                         (js "configPath", JString (toString configPath))])]
  end.

(** Modelled from the spec: [toStoreData] of
    [vs/platform/history/common/historyStorage], which is not among the
    sources.  The serialized history is [{ files: [...], workspaces:
    [...] }]. *)
Definition toStoreData (data : IRecentlyOpened) : JSON :=
  JObject [(js "files", JArray (map fileToStoreData (files data)));
           (js "workspaces", JArray (map placeToStoreData (workspaces data)))].

(** Modelled from the spec: the decoding of a file, from [{ fileUri }];
    [None] is a value of unknown shape.  Part of [restoreRecentlyOpened]
    of [vs/platform/history/common/historyStorage], which is not among the
    sources. *)
Definition restoreFile (j : JSON) : option IRecentFile :=
  match get j (js "fileUri") with
  | Some (JString s) => Some (RecentFile (URI_parse s))
  | _ => None
  end.

(** Modelled from the spec: the decoding of a folder, from
    [{ folderUri }], or of a workspace, from
    [{ workspace: { id, configPath } }]; part of [restoreRecentlyOpened]. *)
Definition restorePlace (j : JSON) : option IRecentPlace :=
  match get j (js "folderUri") with
  | Some (JString s) => Some (RecentFolder (URI_parse s))
  | _ =>
      match get j (js "workspace") with
      | Some w =>
          match get w (js "id"), get w (js "configPath") with
          | Some (JString id), Some (JString s) =>
              Some (RecentWorkspace id (URI_parse s))
          | _, _ => None
          end
      | None => None
      end
  end.

(** Modelled from the spec: the decoding of the entries of a list, a
    failure when one of them has an unknown shape; part of
    [restoreRecentlyOpened]. *)
Fixpoint restoreEntries {A : Type} (restore : JSON -> option A)
    (l : list JSON) : option (list A) :=
  match l with
  | [] => Some []
  | j :: l' =>
      match restore j, restoreEntries restore l' with
      | Some a, Some r => Some (a :: r)
      | _, _ => None
      end
  end.

(** Modelled from the spec: a field that is missing or is no list decodes
    to the empty list; part of [restoreRecentlyOpened]. *)
Definition restoreField {A : Type} (restore : JSON -> option A)
    (field : option JSON) : option (list A) :=
  match field with
  | Some (JArray l) => restoreEntries restore l
  | _ => Some []
  end.

(** Modelled from the spec: the decoding half of the codec, the part of
    [restoreRecentlyOpened] that has no effect.  Data that is no object, or
    an entry of unknown shape, is a decode failure ([None]). *)
Definition decode (data : JSON) : option IRecentlyOpened :=
  match data with
  | JObject _ =>
      match restoreField restoreFile (get data (js "files")),
            restoreField restorePlace (get data (js "workspaces")) with
      | Some fs, Some ws => Some (mkRecentlyOpened ws fs)
      | _, _ => None
      end
  | _ => None
  end.

(** ** The collaborators, as a world the service runs in *)

(** [StorageScope]: process-wide, or of the workspace. *)
Module StorageScope.

Inductive t : Type := GLOBAL | WORKSPACE.

Definition eqb (a b : t) : bool :=
  match a, b with
  | GLOBAL, GLOBAL | WORKSPACE, WORKSPACE => true
  | _, _ => false
  end.

End StorageScope.

(** The storage service: text values by scope and key. *)
Definition Storage := list (StorageScope.t * jsstring * jsstring).

Definition same_slot (scope : StorageScope.t) (key : jsstring)
    (entry : StorageScope.t * jsstring * jsstring) : bool :=
  StorageScope.eqb scope (fst (fst entry)) && streq key (snd (fst entry)).

Fixpoint storage_get (st : Storage) (key : jsstring) (scope : StorageScope.t) :
    option jsstring :=
  match st with
  | [] => None
  | entry :: st' =>
      if same_slot scope key entry then Some (snd entry)
      else storage_get st' key scope
  end.

Definition storage_store (st : Storage) (key value : jsstring)
    (scope : StorageScope.t) : Storage :=
  (scope, key, value) :: filter (fun entry => negb (same_slot scope key entry)) st.

(** Modelled from the spec: [IResourceEditor] of
    [vs/workbench/services/editor/common/editorService], which is not among
    the sources: an editor input, reduced to the resolved file location
    the editor-opening collaborator is given. *)
Record IResourceEditor := mkResourceEditor { resource : URI }.

(** What the service does to its collaborators, in the order it does it. *)
Inductive Event : Type :=
| StorageStore (key value : jsstring) (scope : StorageScope.t)
| LogWarn
| WindowOpen (address : jsstring)
| LocationHref (address : jsstring)
| OpenEditors (inputs : list IResourceEditor).

(** The workspace context service: [getWorkbenchState()] and
    [getWorkspace()]. *)
Module WorkbenchState.

Inductive t : Type := EMPTY | FOLDER | WORKSPACE.

End WorkbenchState.

Record IWorkspace := mkWorkspace {
  workspace_id : jsstring;
  workspace_folders : list URI;
  workspace_configuration : option URI
}.

Record World := mkWorld {
  storage : Storage;
  windowConfig : option IWindowSettings;
  origin : jsstring;
  workbenchState : WorkbenchState.t;
  workspace : IWorkspace;
  trace : list Event
}.

(** A method either returns or throws (an [async] method: resolves or
    rejects).  Calls are taken one after the other, each run to its end, as
    a caller that awaits each call sees them. *)
Inductive Error : Type :=
| SyntaxError
| TypeError
| Rejected (reason : jsstring).

Inductive Outcome (A : Type) : Type :=
| Returned (a : A)
| Thrown (e : Error).

Arguments Returned {A} a.
Arguments Thrown {A} e.

Definition M (A : Type) : Type := World -> Outcome A * World.

Definition ret {A : Type} (a : A) : M A := fun w => (Returned a, w).

Definition throw {A : Type} (e : Error) : M A := fun w => (Thrown e, w).

Definition bind {A B : Type} (m : M A) (k : A -> M B) : M B :=
  fun w =>
    match m w with
    | (Returned a, w') => k a w'
    | (Thrown e, w') => (Thrown e, w')
    end.

Declare Scope service_scope.
Delimit Scope service_scope with service.

Notation "x <- m ;; k" := (bind m (fun x => k))
  (at level 61, m at next level, right associativity) : service_scope.
Notation "m ;; k" := (bind m (fun _ => k))
  (at level 61, right associativity) : service_scope.

Open Scope service_scope.

Definition emit (e : Event) : M unit :=
  fun w => (Returned tt,
            mkWorld (storage w) (windowConfig w) (origin w) (workbenchState w)
                    (workspace w) (trace w ++ [e])).

(** [storageService.get(key, scope)]. *)
Definition storageService_get (key : jsstring) (scope : StorageScope.t) :
    M (option jsstring) :=
  fun w => (Returned (storage_get (storage w) key scope), w).

(** [storageService.store(key, value, scope)]. *)
Definition storageService_store (key value : jsstring) (scope : StorageScope.t) :
    M unit :=
  fun w => (Returned tt,
            mkWorld (storage_store (storage w) key value scope) (windowConfig w)
                    (origin w) (workbenchState w) (workspace w)
                    (trace w ++ [StorageStore key value scope])).

(** [JSON.parse(text)], which throws a [SyntaxError] on text that is no
    JSON. *)
Definition JSON_parse (text : jsstring) : M JSON :=
  match parse text with
  | Some v => ret v
  | None => throw SyntaxError
  end.

(** Modelled from the spec: [restoreRecentlyOpened(data, logService)] of
    [vs/platform/history/common/historyStorage], which is not among the
    sources.  A decode failure is logged and gives the empty history. *)
Definition restoreRecentlyOpened (data : JSON) : M IRecentlyOpened :=
  match decode data with
  | Some h => ret h
  | None => emit LogWarn ;; ret (mkRecentlyOpened [] [])
  end.

(** ** The recently-opened history of [SimpleWindowService] *)

Definition RECENTLY_OPENED_KEY : jsstring := js "recently.opened".

Definition getRecentlyOpened : M IRecentlyOpened :=
  recentlyOpenedRaw <- storageService_get RECENTLY_OPENED_KEY StorageScope.GLOBAL ;;
  if truthy recentlyOpenedRaw then
    match recentlyOpenedRaw with
    | Some raw => data <- JSON_parse raw ;; restoreRecentlyOpened data
    | None => ret (mkRecentlyOpened [] [])
    end
  else ret (mkRecentlyOpened [] []).

(** [paths.some(path => path.toString() === uri.toString())]. *)
Definition somePath (paths : list URI) (uri : URI) : bool :=
  existsb (fun path => streq (toString path) (toString uri)) paths.

(** [doRemoveFromRecentlyOpened] replaces both lists of the object it is
    given; here it returns the object it leaves. *)
Definition doRemoveFromRecentlyOpened (recentlyOpened : IRecentlyOpened)
    (paths : list URI) : IRecentlyOpened :=
  mkRecentlyOpened
    (filter (fun workspace => negb (somePath paths (placeUri workspace)))
            (workspaces recentlyOpened))
    (filter (fun file => negb (somePath paths (fileUri file)))
            (files recentlyOpened)).

Definition saveRecentlyOpened (data : IRecentlyOpened) : M unit :=
  storageService_store RECENTLY_OPENED_KEY (stringify (toStoreData data))
                       StorageScope.GLOBAL.

(** The body of the [forEach] of [addRecentlyOpened], for one entry. *)
Definition addRecent (recentlyOpened : IRecentlyOpened) (recent : IRecent) :
    IRecentlyOpened :=
  match recent with
  | OfFile file =>
      let r := doRemoveFromRecentlyOpened recentlyOpened [fileUri file] in
      mkRecentlyOpened (workspaces r) (file :: files r)
  | OfPlace (RecentFolder folderUri as place) =>
      let r := doRemoveFromRecentlyOpened recentlyOpened [folderUri] in
      mkRecentlyOpened (place :: workspaces r) (files r)
  | OfPlace (RecentWorkspace _ configPath as place) =>
      let r := doRemoveFromRecentlyOpened recentlyOpened [configPath] in
      mkRecentlyOpened (place :: workspaces r) (files r)
  end.

Definition addRecentlyOpened (recents : list IRecent) : M unit :=
  recentlyOpened <- getRecentlyOpened ;;
  saveRecentlyOpened (fold_left addRecent recents recentlyOpened).

Definition removeFromRecentlyOpened (paths : list URI) : M unit :=
  recentlyOpened <- getRecentlyOpened ;;
  saveRecentlyOpened (doRemoveFromRecentlyOpened recentlyOpened paths).

(** [addWorkspaceToRecentlyOpened], which the constructor calls: the
    folder or the workspace the window shows is recorded.  The source takes
    the first folder and asserts that the workspace has a configuration; a
    world where one is missing gives a [TypeError]. *)
Definition addWorkspaceToRecentlyOpened : M unit :=
  fun w =>
    match workbenchState w with
    | WorkbenchState.FOLDER =>
        match workspace_folders (workspace w) with
        | folder :: _ => addRecentlyOpened [OfPlace (RecentFolder folder)] w
        | [] => (Thrown TypeError, w)
        end
    | WorkbenchState.WORKSPACE =>
        match workspace_configuration (workspace w) with
        | Some configuration =>
            addRecentlyOpened
              [OfPlace (RecentWorkspace (workspace_id (workspace w)) configuration)] w
        | None => (Thrown TypeError, w)
        end
    | WorkbenchState.EMPTY => (Returned tt, w)
    end.

(** ** [openWindow] *)

(** [IURIToOpen]: an object with a [folderUri], a [workspaceUri] or a
    [fileUri]; [openWindow] asks for each with [in]. *)
Record IURIToOpen := mkURIToOpen {
  open_folderUri : option URI;
  open_workspaceUri : option URI;
  open_fileUri : option URI
}.

Definition folderToOpen (u : URI) : IURIToOpen := mkURIToOpen (Some u) None None.
Definition workspaceToOpen (u : URI) : IURIToOpen := mkURIToOpen None (Some u) None.
Definition fileToOpen (u : URI) : IURIToOpen := mkURIToOpen None None (Some u).

Section OpenWindow.

(** [uri.path], the path component of a location; [vs/base/common/uri] is
    not among the sources. *)
Variable path : URI -> jsstring.

(** [pathsToEditors(paths, fileService)] of [vs/workbench/common/editor],
    not among the sources: the editor inputs of the paths, or a rejection. *)
Variable pathsToEditors : list IURIToOpen -> Outcome (list IResourceEditor).

(** [window.open(newAddress)] when the folder opens in a new window,
    [window.location.href = newAddress] when it replaces this one. *)
Definition navigate (openFolderInNewWindow : bool) (newAddress : jsstring) :
    M unit :=
  if openFolderInNewWindow then emit (WindowOpen newAddress)
  else emit (LocationHref newAddress).

(** The body of the loop of [openWindow], for one [uri]. *)
Definition openOne (openFolderInNewWindow : bool) (uri : IURIToOpen) : M unit :=
  (match open_folderUri uri with
   | Some folderUri =>
       fun w => navigate openFolderInNewWindow
                  (origin w ++ js "/?folder=" ++ path folderUri) w
   | None => ret tt
   end) ;;
  (match open_workspaceUri uri with
   | Some workspaceUri =>
       fun w => navigate openFolderInNewWindow
                  (origin w ++ js "/?workspace=" ++ path workspaceUri) w
   | None => ret tt
   end) ;;
  (match open_fileUri uri with
   | Some _ =>
       match pathsToEditors [uri] with
       | Returned inputs => emit (OpenEditors inputs)
       | Thrown e => throw e
       end
   | None => ret tt
   end).

Fixpoint openEach (openFolderInNewWindow : bool) (_uris : list IURIToOpen) :
    M unit :=
  match _uris with
  | [] => ret tt
  | uri :: rest =>
      openOne openFolderInNewWindow uri ;; openEach openFolderInNewWindow rest
  end.

Definition openWindow (_uris : list IURIToOpen) (_options : option IOpenSettings) :
    M unit :=
  fun w => openEach (shouldOpenNewWindow (windowConfig w) _options) _uris w.

End OpenWindow.

(** ** Notions the properties are stated with *)

(** The precedence table of the specification for [decideNewWindow], on
    the options and the value of the setting. *)
Definition decideNewWindow (options : IOpenSettings) (config : jsstring) : bool :=
  let forceNew := truthy_bool (forceNewWindow options) in
  let forceReuse := truthy_bool (forceReuseWindow options) in
  if forceNew && negb forceReuse then true
  else if negb forceNew && negb forceReuse && streq config (js "on") then true
  else if negb forceNew && negb forceReuse && streq config (js "off") then false
  else false.

(** The value of the setting [window.openFoldersInNewWindow], ['default']
    when the section or the setting is missing or empty. *)
Definition openFoldersSetting (windowConfig : option IWindowSettings) : jsstring :=
  match windowConfig with
  | Some c =>
      match openFoldersInNewWindow c with
      | Some (x :: s) => x :: s
      | _ => js "default"
      end
  | None => js "default"
  end.

(** The options of a request, [{}] when it has none. *)
Definition optionsOrDefault (_options : option IOpenSettings) : IOpenSettings :=
  match _options with
  | Some o => o
  | None => noOptions
  end.

Definition emptyHistory : IRecentlyOpened := mkRecentlyOpened [] [].

(** The world after a method has run. *)
Definition after_call {A : Type} (m : M A) (w : World) : World := snd (m w).

(** The text stored under ['recently.opened'], process-wide. *)
Definition stored (w : World) : option jsstring :=
  storage_get (storage w) RECENTLY_OPENED_KEY StorageScope.GLOBAL.

(** The history a call of [getRecentlyOpened] returns in [w], if it returns
    one. *)
Definition history (w : World) : option IRecentlyOpened :=
  match fst (getRecentlyOpened w) with
  | Returned h => Some h
  | Thrown _ => None
  end.

(** A world with the storage [st], no configuration and no workspace
    shown, and the one with nothing stored. *)
Definition worldWith (st : Storage) : World :=
  mkWorld st None (js "http://localhost:8080") WorkbenchState.EMPTY
          (mkWorkspace [] [] None) [].

Definition freshWorld : World := worldWith [].

(** A world with nothing stored, whose window shows the folder [f]. *)
Definition folderWorld (f : URI) : World :=
  mkWorld [] None (js "http://localhost:8080") WorkbenchState.FOLDER
          (mkWorkspace (js "id") [f] None) [].

Definition isStore (e : Event) : bool :=
  match e with
  | StorageStore _ _ _ => true
  | _ => false
  end.

Definition isOpenEditors (e : Event) : bool :=
  match e with
  | OpenEditors _ => true
  | _ => false
  end.

Section Expected.

Variable path : URI -> jsstring.
Variable pathsToEditors : list IURIToOpen -> Outcome (list IResourceEditor).

(** The navigation a target asks for, under the decision [d]. *)
Definition navigation (d : bool) (origin : jsstring) (uri : IURIToOpen) :
    list Event :=
  let go address := if d then WindowOpen address else LocationHref address in
  match open_folderUri uri with
  | Some folderUri => [go (origin ++ js "/?folder=" ++ path folderUri)]
  | None => []
  end ++
  match open_workspaceUri uri with
  | Some workspaceUri => [go (origin ++ js "/?workspace=" ++ path workspaceUri)]
  | None => []
  end.

(** What a request does to the window and to the editor service, target by
    target, up to the first file [pathsToEditors] rejects. *)
Fixpoint dispatched (d : bool) (origin : jsstring) (uris : list IURIToOpen) :
    list Event :=
  match uris with
  | [] => []
  | uri :: rest =>
      navigation d origin uri ++
      match open_fileUri uri with
      | Some _ =>
          match pathsToEditors [uri] with
          | Returned inputs => OpenEditors inputs :: dispatched d origin rest
          | Thrown _ => []
          end
      | None => dispatched d origin rest
      end
  end.

(** How the request ends: with the first rejection of [pathsToEditors], if
    there is one. *)
Fixpoint outcome (uris : list IURIToOpen) : Outcome unit :=
  match uris with
  | [] => Returned tt
  | uri :: rest =>
      match open_fileUri uri with
      | Some _ =>
          match pathsToEditors [uri] with
          | Returned _ => outcome rest
          | Thrown e => Thrown e
          end
      | None => outcome rest
      end
  end.

End Expected.

(** A navigation event agrees with the decision [d]: a new window when [d],
    this window when not. *)
Definition agrees (d : bool) (e : Event) : Prop :=
  match e with
  | WindowOpen _ => d = true
  | LocationHref _ => d = false
  | _ => True
  end.

(** The path of a [file:] location, for the examples. *)
Definition filePath (u : URI) : jsstring := skipn 7 (toString u).

(** A [pathsToEditors] that resolves every file, for the examples. *)
Definition editorsOf (paths : list IURIToOpen) : Outcome (list IResourceEditor) :=
  Returned (flat_map (fun p => match open_fileUri p with
                               | Some u => [mkResourceEditor u]
                               | None => []
                               end) paths).

(** The world with more events in its trace. *)
Definition record (events : list Event) (w : World) : World :=
  mkWorld (storage w) (windowConfig w) (origin w) (workbenchState w)
          (workspace w) (trace w ++ events).

(** The locations of a history, as the strings they are compared by:
    of the files, of the folders and workspaces, of both, and of the
    folders and of the workspaces apart. *)
Definition fileLocations (h : IRecentlyOpened) : list jsstring :=
  map (fun f => toString (fileUri f)) (files h).

Definition placeLocations (h : IRecentlyOpened) : list jsstring :=
  map (fun p => toString (placeUri p)) (workspaces h).

Definition locations (h : IRecentlyOpened) : list jsstring :=
  fileLocations h ++ placeLocations h.

Definition folderLocations (h : IRecentlyOpened) : list jsstring :=
  flat_map (fun p => match p with
                     | RecentFolder folderUri => [toString folderUri]
                     | RecentWorkspace _ _ => []
                     end) (workspaces h).

Definition workspaceLocations (h : IRecentlyOpened) : list jsstring :=
  flat_map (fun p => match p with
                     | RecentFolder _ => []
                     | RecentWorkspace _ configPath => [toString configPath]
                     end) (workspaces h).

(** How many entries of a history have the location [x]. *)
Definition occurrences (x : jsstring) (h : IRecentlyOpened) : nat :=
  List.length (filter (streq x) (locations h)).

(** The specification's [add], for one entry: every entry of the location
    of the new one is removed, and the new one is put at the front of its
    list. *)
Definition withoutLocation (x : jsstring) (h : IRecentlyOpened) : IRecentlyOpened :=
  mkRecentlyOpened
    (filter (fun p => negb (streq x (toString (placeUri p)))) (workspaces h))
    (filter (fun f => negb (streq x (toString (fileUri f)))) (files h)).

Definition prepend (r : IRecent) (h : IRecentlyOpened) : IRecentlyOpened :=
  match r with
  | OfFile f => mkRecentlyOpened (workspaces h) (f :: files h)
  | OfPlace p => mkRecentlyOpened (p :: workspaces h) (files h)
  end.

Definition addEntry (h : IRecentlyOpened) (r : IRecent) : IRecentlyOpened :=
  prepend r (withoutLocation (toString (recentUri r)) h).

(** The location [u] is one of the given ones, by equality of the
    normalized strings. *)
Definition matches (paths : list URI) (u : URI) : Prop :=
  In (toString u) (map toString paths).

(** The calls that change the history: add, remove, and the start of the
    service, which adds the workspace the window shows. *)
Inductive Call : Type :=
| Add (recents : list IRecent)
| Remove (paths : list URI)
| Startup.

Definition call (c : Call) : M unit :=
  match c with
  | Add recents => addRecentlyOpened recents
  | Remove paths => removeFromRecentlyOpened paths
  | Startup => addWorkspaceToRecentlyOpened
  end.

(** The worlds these calls lead to from one whose history is empty. *)
Inductive reachable : World -> Prop :=
| reachable_empty (w : World) : history w = Some emptyHistory -> reachable w
| reachable_call (w : World) (c : Call) :
    reachable w -> reachable (after_call (call c) w).

(** The entry the start of the service adds: the folder or the workspace
    the window shows, if it shows one. *)
Definition activeWorkspace (w : World) : option IRecent :=
  match workbenchState w with
  | WorkbenchState.FOLDER =>
      match workspace_folders (workspace w) with
      | f :: _ => Some (OfPlace (RecentFolder f))
      | [] => None
      end
  | WorkbenchState.WORKSPACE =>
      match workspace_configuration (workspace w) with
      | Some configuration =>
          Some (OfPlace (RecentWorkspace (workspace_id (workspace w)) configuration))
      | None => None
      end
  | WorkbenchState.EMPTY => None
  end.

(** The recent folder of a location, for the examples. *)
Definition folder (s : string) : IRecent := OfPlace (RecentFolder (mkURI (js s))).

(** [matches], as a test. *)
Definition matchesb (paths : list URI) (u : URI) : bool :=
  existsb (streq (toString u)) (map toString paths).

(** The specification's [remove], on a history: the entries whose location
    is none of the given ones, in their order. *)
Definition withoutLocations (paths : list URI) (h : IRecentlyOpened) :
    IRecentlyOpened :=
  mkRecentlyOpened
    (filter (fun p => negb (matchesb paths (placeUri p))) (workspaces h))
    (filter (fun f => negb (matchesb paths (fileUri f))) (files h)).

(** Values with no number in them: the codec writes no other. *)
Fixpoint number_free (v : JSON) : bool :=
  match v with
  | JNumber _ => false
  | JArray l => forallb number_free l
  | JObject l => forallb (fun m => number_free (snd m)) l
  | _ => true
  end.

(** The text of a member of an object: its name, a colon, its value. *)
Definition member_text (m : jsstring * JSON) : jsstring :=
  (quote (fst m) ++ 58 :: stringify (snd m))%N.

(** What [parse_value] is to do on the text of [v]: read [v] back and leave
    what follows, given fuel for the length of the text. *)
Definition reads_back (v : JSON) : Prop :=
  number_free v = true ->
  forall (rest : jsstring) (fuel : nat),
    2 * List.length (stringify v) + 1 <= fuel ->
    parse_value fuel (stringify v ++ rest) = Some (v, rest).

(** * The rest of the window services *)

(** ** [encodeURIComponent]

    The characters a URI component keeps (letters, digits and
    [- _ . ! ~ * ' ( )]) are written as they are; every other code point is
    written as the bytes of its UTF-8 form, each as [%] and two upper-case
    hexadecimal digits.  A surrogate that is not half of a pair is a
    [URIError]. *)

Module UriComponent.

Open Scope N_scope.

Definition is_unreserved (c : char16) : bool :=
  ((65 <=? c) && (c <=? 90)) || ((97 <=? c) && (c <=? 122))
  || ((48 <=? c) && (c <=? 57))
  || (c =? 45) || (c =? 95) || (c =? 46) || (c =? 33) || (c =? 126)
  || (c =? 42) || (c =? 39) || (c =? 40) || (c =? 41).

Definition is_lead (c : char16) : bool := (55296 <=? c) && (c <=? 56319).

Definition is_trail (c : char16) : bool := (56320 <=? c) && (c <=? 57343).

Definition upper_hex (n : N) : char16 :=
  if n <? 10 then 48 + n else 55 + n.

(** [%XX] for one byte. *)
Definition percent (byte : N) : jsstring :=
  [37; upper_hex (byte / 16); upper_hex (byte mod 16)].

(** The bytes of the UTF-8 form of a code point (for a code point, which
    is below 1114112, the [mod 8] of the first of four bytes changes
    nothing). *)
Definition utf8 (v : N) : list N :=
  if v <? 128 then [v]
  else if v <? 2048 then [192 + v / 64; 128 + v mod 64]
  else if v <? 65536 then
    [224 + v / 4096; 128 + (v / 64) mod 64; 128 + v mod 64]
  else
    [240 + (v / 262144) mod 8; 128 + (v / 4096) mod 64;
     128 + (v / 64) mod 64; 128 + v mod 64].

Definition escape (v : N) : jsstring := flat_map percent (utf8 v).

Definition prefix_with (e : jsstring) (r : option jsstring) : option jsstring :=
  match r with
  | Some t => Some (e ++ t)
  | None => None
  end.

(** [encodeURIComponent(s)]; [None] stands for the [URIError]. *)
Fixpoint encodeURIComponent (s : jsstring) : option jsstring :=
  match s with
  | [] => Some []
  | c :: r =>
      if is_unreserved c then prefix_with [c] (encodeURIComponent r)
      else if is_trail c then None
      else if is_lead c then
        match r with
        | [] => None
        | k :: r' =>
            if is_trail k then
              prefix_with (escape ((c - 55296) * 1024 + (k - 56320) + 65536))
                          (encodeURIComponent r')
            else None
        end
      else prefix_with (escape c) (encodeURIComponent r)
  end.

Close Scope N_scope.

End UriComponent.

Import UriComponent.

(** ** [SimpleWindowsService.openExtensionDevelopmentHostWindow] *)

(** A value of [ParsedArgs] that the method indexes: a string, or an array
    of strings ([vs/platform/environment/common/environment] is not among
    the sources; the method reads [f[0]] of it). *)
Inductive ArgValue : Type :=
| ArgString (s : jsstring)
| ArgArray (l : list jsstring).

(** The fields of [ParsedArgs] the method reads, each possibly
    [undefined]: ['folder-uri'], ['extensionDevelopmentPath'], ['debugId']
    and ['inspect-brk-extensions']. *)
Record ParsedArgs := mkParsedArgs {
  folder_uri : option ArgValue;
  extensionDevelopmentPath : option ArgValue;
  debugId : option jsstring;
  inspect_brk_extensions : option jsstring
}.

(** Truthiness of such a value: [undefined] and the empty string are
    falsy, an array is truthy, the empty one too. *)
Definition truthy_arg (v : option ArgValue) : bool :=
  match v with
  | None => false
  | Some (ArgString s) => truthy (Some s)
  | Some (ArgArray _) => true
  end.

(** [v[0]]: the first character of a string, the first element of an
    array, [undefined] when there is none. *)
Definition index0 (v : option ArgValue) : option jsstring :=
  match v with
  | Some (ArgString (c :: _)) => Some [c]
  | Some (ArgArray (x :: _)) => Some x
  | _ => None
  end.

(** The string a value that is a string or [undefined] is converted to. *)
Definition stringOf (v : option jsstring) : jsstring :=
  match v with
  | Some s => s
  | None => js "undefined"
  end.

(** [s.charAt(s.length - 1)], [None] for the empty string it gives on the
    empty string. *)
Fixpoint lastChar (s : jsstring) : option char16 :=
  match s with
  | [] => None
  | [c] => Some c
  | _ :: r => lastChar r
  end.

(** The [URIError] of [encodeURIComponent]. *)
Definition URIError : Error := Rejected (js "URIError").

Definition andThen {A B : Type} (o : Outcome A) (k : A -> Outcome B) : Outcome B :=
  match o with
  | Returned a => k a
  | Thrown e => Thrown e
  end.

(** The closure [addQueryParameter], on the [newAddress] it updates. *)
Definition addQueryParameter (newAddress key : jsstring) (value : option jsstring) :
    Outcome jsstring :=
  let newAddress :=
    match lastChar newAddress with
    | Some lastChar =>
        if negb (N.eqb lastChar 63) && negb (N.eqb lastChar 38)
        then newAddress ++ [38%N] else newAddress
    | None => newAddress ++ [38%N]
    end in
  match encodeURIComponent (stringOf value) with
  | Some encoded => Returned (newAddress ++ key ++ 61%N :: encoded)
  | None => Thrown URIError
  end.

Section ExtensionDevelopmentHost.

(** [URI.parse(value).path], on a value that may be [undefined];
    [vs/base/common/uri] is not among the sources. *)
Variable parsedPath : option jsstring -> Outcome jsstring.

(** The address the method builds: [newAddress] when it reaches
    [window.open]. *)
Definition extensionHostAddress (origin : jsstring) (args : ParsedArgs) :
    Outcome jsstring :=
  let newAddress := origin ++ js "/?" in
  let f := folder_uri args in
  andThen
    (if truthy_arg f then
       andThen (parsedPath (index0 f)) (fun path =>
       andThen (addQueryParameter newAddress (js "folder") (Some path))
               (fun newAddress => Returned (newAddress, true)))
     else Returned (newAddress, false))
    (fun '(newAddress, gotFolder) =>
  andThen
    (if negb gotFolder then addQueryParameter newAddress (js "ew") (Some (js "true"))
     else Returned newAddress)
    (fun newAddress =>
  let ep := extensionDevelopmentPath args in
  andThen
    (if truthy_arg ep then addQueryParameter newAddress (js "edp") (index0 ep)
     else Returned newAddress)
    (fun newAddress =>
  let di := debugId args in
  andThen
    (if truthy di then addQueryParameter newAddress (js "di") di
     else Returned newAddress)
    (fun newAddress =>
  let ibe := inspect_brk_extensions args in
  if truthy ibe then addQueryParameter newAddress (js "ibe") ibe
  else Returned newAddress)))).

Definition openExtensionDevelopmentHostWindow (args : ParsedArgs) : M unit :=
  fun w =>
    match extensionHostAddress (origin w) args with
    | Returned newAddress => emit (WindowOpen newAddress) w
    | Thrown e => (Thrown e, w)
    end.

(** The parameters of the address, by name and value: the folder or the
    request for an empty window, and then those of the arguments given. *)
Definition hostParameters (args : ParsedArgs) : Outcome (list (jsstring * jsstring)) :=
  andThen
    (if truthy_arg (folder_uri args) then
       andThen (parsedPath (index0 (folder_uri args)))
               (fun path => Returned (js "folder", path))
     else Returned (js "ew", js "true"))
    (fun first =>
       Returned
         (first ::
          (if truthy_arg (extensionDevelopmentPath args)
           then [(js "edp", stringOf (index0 (extensionDevelopmentPath args)))]
           else []) ++
          (if truthy (debugId args) then [(js "di", stringOf (debugId args))] else []) ++
          (if truthy (inspect_brk_extensions args)
           then [(js "ibe", stringOf (inspect_brk_extensions args))] else []))).

End ExtensionDevelopmentHost.

(** [name=value], the value encoded. *)
Definition renderParameter (p : jsstring * jsstring) : option jsstring :=
  match encodeURIComponent (snd p) with
  | Some encoded => Some (fst p ++ 61%N :: encoded)
  | None => None
  end.

Fixpoint renderParameters (ps : list (jsstring * jsstring)) : option (list jsstring) :=
  match ps with
  | [] => Some []
  | p :: ps' =>
      match renderParameter p, renderParameters ps' with
      | Some r, Some rs => Some (r :: rs)
      | _, _ => None
      end
  end.

(** The texts [l] with [sep] between two of them, and the pieces of a text
    between the [sep]s in it ([text.split(sep)]). *)
Fixpoint joinWith (sep : char16) (l : list jsstring) : jsstring :=
  match l with
  | [] => []
  | [x] => x
  | x :: l' => x ++ sep :: joinWith sep l'
  end.

Fixpoint splitOn (sep : char16) (s : jsstring) : list jsstring :=
  match s with
  | [] => [[]]
  | c :: r =>
      if N.eqb c sep then [] :: splitOn sep r
      else match splitOn sep r with
           | x :: xs => (c :: x) :: xs
           | [] => [[c]]
           end
  end.

(** A character of an encoded component: one it keeps, or [%]. *)
Definition componentChar (c : char16) : Prop :=
  is_unreserved c = true \/ c = 37%N.

(** An address to which a parameter was last added: it ends with neither
    [?] nor [&]. *)
Definition endsParameter (address : jsstring) : Prop :=
  exists c, lastChar address = Some c /\ c <> 63%N /\ c <> 38%N.

(** The address a list of parameters gives, or the [URIError] of one of
    them. *)
Definition addressOf (origin : jsstring) (ps : list (jsstring * jsstring)) :
    Outcome jsstring :=
  match renderParameters ps with
  | Some rs => Returned (origin ++ js "/?" ++ joinWith 38%N rs)
  | None => Thrown URIError
  end.

(** ** Notions for the composition of calls *)

(** The entries of [a] in front of those of [b], list by list. *)
Definition happ (a b : IRecentlyOpened) : IRecentlyOpened :=
  mkRecentlyOpened (workspaces a ++ workspaces b) (files a ++ files b).

(** What adding the entries [l] leaves of the empty history. *)
Definition frontOf (l : list IRecent) : IRecentlyOpened :=
  fold_left addEntry l emptyHistory.

(** Every entry of [h] has one of the locations [paths]. *)
Definition covered (paths : list URI) (h : IRecentlyOpened) : Prop :=
  (forall p, In p (workspaces h) -> matches paths (placeUri p)) /\
  (forall f, In f (files h) -> matches paths (fileUri f)).

(** No entry of [h] has one of the locations [paths]. *)
Definition untouched (paths : list URI) (h : IRecentlyOpened) : Prop :=
  (forall p, In p (workspaces h) -> ~ matches paths (placeUri p)) /\
  (forall f, In f (files h) -> ~ matches paths (fileUri f)).

(** The world after the calls [cs], one after the other. *)
Fixpoint runCalls (cs : list Call) (w : World) : World :=
  match cs with
  | [] => w
  | c :: cs' => runCalls cs' (after_call (call c) w)
  end.

(** A [pathsToEditors] that rejects every file, for the examples. *)
Definition noEditors (paths : list IURIToOpen) : Outcome (list IResourceEditor) :=
  Thrown (Rejected (js "ENOENT")).

(** The folders and workspaces among entries, and the files among them. *)
Definition placesOf (l : list IRecent) : list IRecentPlace :=
  flat_map (fun r => match r with
                     | OfPlace p => [p]
                     | OfFile _ => []
                     end) l.

Definition filesOf (l : list IRecent) : list IRecentFile :=
  flat_map (fun r => match r with
                     | OfFile f => [f]
                     | OfPlace _ => []
                     end) l.

(** The names of the parameters of the address. *)
Definition hostKeys : list jsstring :=
  [js "folder"; js "ew"; js "edp"; js "di"; js "ibe"].

(** ** [SimpleWindowService.toggleFullScreen] *)

(** What the method reads of [document]: [fullscreen] and
    [webkitIsFullScreen], each [undefined] where the browser has not the
    interface. *)
Record Document := mkDocument {
  fullscreen : option bool;
  webkitIsFullScreen : option bool
}.

(** The calls the method makes on the target and on the document. *)
Inductive DomCall : Type :=
| requestFullscreen
| exitFullscreen
| webkitRequestFullscreen
| webkitExitFullscreen.

Inductive PageEvent : Type :=
| Called (c : DomCall)
| ConsoleWarn (message : jsstring).

(** A computation on the page: it returns or throws, and adds to the
    events of the page. *)
Definition Page (A : Type) : Type := list PageEvent -> Outcome A * list PageEvent.

Definition pageRet {A : Type} (a : A) : Page A := fun t => (Returned a, t).

Definition pageBind {A B : Type} (m : Page A) (k : A -> Page B) : Page B :=
  fun t =>
    match m t with
    | (Returned a, t') => k a t'
    | (Thrown e, t') => (Thrown e, t')
    end.

(** [promise.catch(handler)], and [try { m } catch { handler }]. *)
Definition pageCatch (m : Page unit) (handler : Page unit) : Page unit :=
  fun t =>
    match m t with
    | (Returned a, t') => (Returned a, t')
    | (Thrown _, t') => handler t'
    end.

Definition consoleWarn (message : jsstring) : Page unit :=
  fun t => (Returned tt, t ++ [ConsoleWarn message]).

Section ToggleFullScreen.

(** The element the method is given. *)
Variable HTMLElement : Type.

(** The error a call of the browser fails with, [None] when it does not
    fail: for a call of the standard interface, the promise it returns is
    rejected with it; a call of the webkit interface throws it. *)
Variable failure : DomCall -> option Error.

Definition domCall (c : DomCall) : Page unit :=
  fun t =>
    (match failure c with
     | Some e => Thrown e
     | None => Returned tt
     end, t ++ [Called c]).

Definition toggleFullScreen (target : option HTMLElement) (document : Document) :
    Page unit :=
  match target with
  | None => pageRet tt
  | Some _ =>
      match fullscreen document with
      | Some isFullscreen =>
          if negb isFullscreen then
            pageCatch (domCall requestFullscreen)
                      (consoleWarn (js "Toggle Full Screen failed"))
          else
            pageCatch (domCall exitFullscreen)
                      (consoleWarn (js "Exit Full Screen failed"))
      | None =>
          pageBind
            (match webkitIsFullScreen document with
             | Some isFullScreen =>
                 pageCatch
                   (if negb isFullScreen then domCall webkitRequestFullscreen
                    else domCall webkitExitFullscreen)
                   (consoleWarn (js "Enter/Exit Full Screen failed"))
             | None => pageRet tt
             end)
            (fun _ => pageRet tt)
      end
  end.

End ToggleFullScreen.

(** The call a toggle asks of the browser, if it asks for one: of the
    standard interface when the document has it, else of the webkit one
    when the document has that; a request when the document is not full
    screen, an exit when it is. *)
Definition toggleCall (hasTarget : bool) (document : Document) : option DomCall :=
  if hasTarget then
    match fullscreen document, webkitIsFullScreen document with
    | Some false, _ => Some requestFullscreen
    | Some true, _ => Some exitFullscreen
    | None, Some false => Some webkitRequestFullscreen
    | None, Some true => Some webkitExitFullscreen
    | None, None => None
    end
  else None.

Definition isCalled (e : PageEvent) : bool :=
  match e with
  | Called _ => true
  | ConsoleWarn _ => false
  end.

Definition isWebkit (c : DomCall) : bool :=
  match c with
  | webkitRequestFullscreen | webkitExitFullscreen => true
  | _ => false
  end.

Definition hasTarget {A : Type} (target : option A) : bool :=
  match target with
  | Some _ => true
  | None => false
  end.

(** The warning the method gives when a call has failed. *)
Definition warningOf (c : DomCall) : jsstring :=
  match c with
  | requestFullscreen => js "Toggle Full Screen failed"
  | exitFullscreen => js "Exit Full Screen failed"
  | webkitRequestFullscreen | webkitExitFullscreen =>
      js "Enter/Exit Full Screen failed"
  end.

(** The events of a toggle that asks for the call [c]: the call, and the
    warning when it fails. *)
Definition toggleEvents (failure : DomCall -> option Error) (c : option DomCall) :
    list PageEvent :=
  match c with
  | None => []
  | Some c =>
      Called c :: match failure c with
                  | Some _ => [ConsoleWarn (warningOf c)]
                  | None => []
                  end
  end.

(** * Properties *)

(** ** Strings *)

Lemma streq_spec (a b : jsstring) : streq a b = true <-> a = b.
Proof.
  revert b; induction a as [|x a IH]; intros [|y b]; simpl; split;
    try congruence; try reflexivity.
  - intros H. apply andb_true_iff in H. destruct H as [Hx Hab].
    apply N.eqb_eq in Hx. apply IH in Hab. congruence.
  - intros H. injection H as -> ->. rewrite N.eqb_refl. simpl. now apply IH.
Qed.

Lemma streq_refl (a : jsstring) : streq a a = true.
Proof. now apply streq_spec. Qed.

Lemma streq_neq (a b : jsstring) : a <> b -> streq a b = false.
Proof.
  intros H. destruct (streq a b) eqn:E; [|reflexivity].
  apply streq_spec in E. contradiction.
Qed.

(** ** [JSON.parse] reads back what [JSON.stringify] writes *)

Section JsonInduction.

Variable P : JSON -> Prop.
Hypothesis Hnull : P JNull.
Hypothesis Hbool : forall b, P (JBool b).
Hypothesis Hnumber : forall lexeme, P (JNumber lexeme).
Hypothesis Hstring : forall s, P (JString s).
Hypothesis Harray : forall l, Forall P l -> P (JArray l).
Hypothesis Hobject : forall l, Forall (fun m => P (snd m)) l -> P (JObject l).

Fixpoint JSON_nested_ind (v : JSON) : P v :=
  match v with
  | JNull => Hnull
  | JBool b => Hbool b
  | JNumber lexeme => Hnumber lexeme
  | JString s => Hstring s
  | JArray l =>
      Harray l ((fix all (l : list JSON) : Forall P l :=
                 match l with
                 | [] => Forall_nil P
                 | v :: l' => Forall_cons v (JSON_nested_ind v) (all l')
                 end) l)
  | JObject l =>
      Hobject l ((fix all (l : list (jsstring * JSON)) :
                    Forall (fun m => P (snd m)) l :=
                  match l with
                  | [] => Forall_nil _
                  | m :: l' => Forall_cons m (JSON_nested_ind (snd m)) (all l')
                  end) l)
  end.

End JsonInduction.

Open Scope N_scope.

Lemma hex_escape (c : char16) :
  c < 32 -> hex4 48 48 (hex_digit (c / 16)) (hex_digit (c mod 16)) = Some c.
Proof.
  intros H.
  assert (E : exists n, (n < 32)%nat /\ c = N.of_nat n).
  { exists (N.to_nat c). split; [lia | now rewrite N2Nat.id]. }
  destruct E as [n [Hn ->]].
  do 32 (destruct n as [|n]; [reflexivity|]). lia.
Qed.

Lemma parse_chars_quote_char (c : char16) (t : jsstring) :
  parse_chars (quote_char c ++ t) = consfst c (parse_chars t).
Proof.
  unfold quote_char.
  destruct (N.eqb_spec c 34) as [->|H34]; [reflexivity|].
  destruct (N.eqb_spec c 92) as [->|H92]; [reflexivity|].
  destruct (N.eqb_spec c 8) as [->|H8]; [reflexivity|].
  destruct (N.eqb_spec c 12) as [->|H12]; [reflexivity|].
  destruct (N.eqb_spec c 10) as [->|H10]; [reflexivity|].
  destruct (N.eqb_spec c 13) as [->|H13]; [reflexivity|].
  destruct (N.eqb_spec c 9) as [->|H9]; [reflexivity|].
  destruct (N.ltb_spec c 32) as [Hlt|Hge].
  - cbn [app parse_chars]. change (92 =? 34) with false. change (92 =? 92) with true.
    change (117 =? 117) with true. cbv iota.
    now rewrite (hex_escape c Hlt).
  - cbn [app parse_chars].
    apply N.eqb_neq in H34, H92. rewrite H34, H92.
    apply N.ltb_ge in Hge. now rewrite Hge.
Qed.

Lemma parse_chars_quote (s rest : jsstring) :
  parse_chars (flat_map quote_char s ++ 34 :: rest) = Some (s, rest).
Proof.
  induction s as [|c s IH]; [reflexivity|].
  cbn [flat_map]. rewrite <- app_assoc, parse_chars_quote_char, IH. reflexivity.
Qed.

Lemma join_cons (x : jsstring) (l : list jsstring) :
  join (x :: l) = x ++ match l with [] => [] | _ :: _ => 44 :: join l end.
Proof. destruct l; simpl; [now rewrite app_nil_r | reflexivity]. Qed.

(** The first character of the text of a value tells its kind. *)
Lemma stringify_head (v : JSON) :
  number_free v = true ->
  exists c t, stringify v = c :: t /\ In c [110; 116; 102; 34; 91; 123].
Proof.
  destruct v as [|[|]| | | |]; simpl; intros H; try discriminate;
    eexists; eexists; (split; [reflexivity|]); simpl; tauto.
Qed.

Lemma skip_ws_head (c : char16) (t : jsstring) :
  In c [110; 116; 102; 34; 91; 123; 44; 93; 125; 58] -> skip_ws (c :: t) = c :: t.
Proof.
  simpl. intros H.
  repeat (destruct H as [<-|H]; [reflexivity|]). contradiction.
Qed.

Lemma parse_value_eq (fuel : nat) (s : jsstring) :
  parse_value (S fuel) s =
  match skip_ws s with
  | [] => None
  | c :: r =>
      if c =? 123 then
        match after 125 (skip_ws r) with
        | Some r' => Some (JObject [], r')
        | None =>
            match parse_members fuel r with
            | Some (l, r') => Some (JObject l, r')
            | None => None
            end
        end
      else if c =? 91 then
        match after 93 (skip_ws r) with
        | Some r' => Some (JArray [], r')
        | None =>
            match parse_elements fuel r with
            | Some (l, r') => Some (JArray l, r')
            | None => None
            end
        end
      else if c =? 34 then
        match parse_chars r with
        | Some (str, r') => Some (JString str, r')
        | None => None
        end
      else if c =? 116 then
        match strip (js "rue") r with
        | Some r' => Some (JBool true, r')
        | None => None
        end
      else if c =? 102 then
        match strip (js "alse") r with
        | Some r' => Some (JBool false, r')
        | None => None
        end
      else if c =? 110 then
        match strip (js "ull") r with
        | Some r' => Some (JNull, r')
        | None => None
        end
      else
        match parse_number (c :: r) with
        | Some (lexeme, r') => Some (JNumber lexeme, r')
        | None => None
        end
  end.
Proof. reflexivity. Qed.

Lemma parse_elements_eq (fuel : nat) (s : jsstring) :
  parse_elements (S fuel) s =
  match parse_value fuel s with
  | None => None
  | Some (v, r) =>
      match skip_ws r with
      | c :: r' =>
          if c =? 44 then
            match parse_elements fuel r' with
            | Some (l, r'') => Some (v :: l, r'')
            | None => None
            end
          else if c =? 93 then Some ([v], r')
          else None
      | [] => None
      end
  end.
Proof. reflexivity. Qed.

Lemma parse_members_eq (fuel : nat) (s : jsstring) :
  parse_members (S fuel) s =
  match after 34 (skip_ws s) with
  | None => None
  | Some r =>
      match parse_chars r with
      | None => None
      | Some (k, r1) =>
          match after 58 (skip_ws r1) with
          | None => None
          | Some r2 =>
              match parse_value fuel r2 with
              | None => None
              | Some (v, r3) =>
                  match skip_ws r3 with
                  | c :: r4 =>
                      if c =? 44 then
                        match parse_members fuel r4 with
                        | Some (l, r5) => Some ((k, v) :: l, r5)
                        | None => None
                        end
                      else if c =? 125 then Some ([(k, v)], r4)
                      else None
                  | [] => None
                  end
              end
          end
      end
  end.
Proof. reflexivity. Qed.

Lemma parse_elements_stringify (l : list JSON) :
  Forall reads_back l -> forallb number_free l = true -> l <> [] ->
  forall (rest : jsstring) (fuel : nat),
    (2 * List.length (join (map stringify l)) + 2 <= fuel)%nat ->
    parse_elements fuel (join (map stringify l) ++ 93 :: rest) = Some (l, rest).
Proof.
  induction 1 as [|v l Hv Hl IH]; [congruence|].
  intros Hnf _ rest fuel Hfuel.
  cbn [forallb] in Hnf. apply andb_true_iff in Hnf. destruct Hnf as [Hnv Hnl].
  cbn [map] in *. rewrite join_cons in *. rewrite length_app in Hfuel.
  destruct fuel as [|fuel]; [lia|].
  rewrite parse_elements_eq, <- app_assoc, (Hv Hnv) by lia.
  destruct l as [|v' l'].
  - simpl. reflexivity.
  - cbn [map app] in *. rewrite skip_ws_head by (simpl; tauto).
    change (44 =? 44) with true. cbv iota.
    cbn [List.length] in Hfuel.
    rewrite IH; [reflexivity | assumption | discriminate | lia].
Qed.

Lemma parse_members_stringify (l : list (jsstring * JSON)) :
  Forall (fun m => reads_back (snd m)) l ->
  forallb (fun m => number_free (snd m)) l = true -> l <> [] ->
  forall (rest : jsstring) (fuel : nat),
    (2 * List.length (join (map member_text l)) + 2 <= fuel)%nat ->
    parse_members fuel (join (map member_text l) ++ 125 :: rest) = Some (l, rest).
Proof.
  induction 1 as [|[k v] l Hv Hl IH]; [congruence|].
  intros Hnf _ rest fuel Hfuel.
  cbn [forallb snd] in Hnf. apply andb_true_iff in Hnf. destruct Hnf as [Hnv Hnl].
  cbn [map] in *. rewrite join_cons in *.
  unfold member_text at 1 in Hfuel. unfold member_text at 1.
  cbn [fst snd] in *. unfold quote in *.
  rewrite !length_app in Hfuel. cbn [List.length app] in Hfuel.
  rewrite length_app in Hfuel. cbn [List.length] in Hfuel.
  destruct fuel as [|fuel]; [lia|].
  rewrite parse_members_eq. cbn [app].
  rewrite skip_ws_head by (simpl; tauto). cbn [after].
  change (34 =? 34) with true. cbv iota.
  rewrite <- !app_assoc. cbn [app]. rewrite parse_chars_quote.
  rewrite skip_ws_head by (simpl; tauto). cbn [after].
  change (58 =? 58) with true. cbv iota.
  rewrite (Hv Hnv) by lia.
  destruct l as [|m' l'].
  - simpl. reflexivity.
  - cbn [map app] in *. rewrite skip_ws_head by (simpl; tauto).
    change (44 =? 44) with true. cbv iota.
    cbn [List.length] in Hfuel.
    rewrite IH; [reflexivity | assumption | discriminate | lia].
Qed.

Lemma stringify_array (l : list JSON) :
  stringify (JArray l) = 91 :: join (map stringify l) ++ [93].
Proof. reflexivity. Qed.

Lemma stringify_object (l : list (jsstring * JSON)) :
  stringify (JObject l) = 123 :: join (map member_text l) ++ [125].
Proof. reflexivity. Qed.

Lemma join_head (x : jsstring) (l : list jsstring) (c : char16) (t : jsstring) :
  x = c :: t -> exists t', join (x :: l) = c :: t'.
Proof. intros ->. rewrite join_cons. simpl. eauto. Qed.

Theorem parse_value_stringify (v : JSON) : reads_back v.
Proof.
  induction v as [| b | lexeme | s | l IH | l IH] using JSON_nested_ind;
    intros Hnf rest fuel Hfuel; (destruct fuel as [|fuel]; [lia|]).
  - reflexivity.
  - destruct b; reflexivity.
  - discriminate.
  - rewrite parse_value_eq. cbn [stringify]. unfold quote. cbn [app].
    rewrite skip_ws_head by (simpl; tauto).
    change (34 =? 123) with false. change (34 =? 91) with false.
    change (34 =? 34) with true. cbv iota.
    rewrite <- app_assoc. cbn [app]. now rewrite parse_chars_quote.
  - rewrite parse_value_eq. rewrite stringify_array in *. cbn [app] in *.
    rewrite skip_ws_head by (simpl; tauto).
    change (91 =? 123) with false. change (91 =? 91) with true. cbv iota.
    destruct l as [|v l].
    + reflexivity.
    + cbn [number_free] in Hnf.
      assert (Hh : exists c t, stringify v = c :: t /\ In c [110; 116; 102; 34; 91; 123]).
      { apply stringify_head. cbn [forallb] in Hnf. now apply andb_true_iff in Hnf. }
      destruct Hh as [c [t [Hc Hin]]].
      destruct (join_head (stringify v) (map stringify l) c t Hc) as [t' Ht'].
      change (map stringify (v :: l)) with (stringify v :: map stringify l) in *.
      rewrite <- app_assoc. cbn [app].
      assert (Hafter : after 93 (skip_ws (join (stringify v :: map stringify l)
                                          ++ 93 :: rest)) = None).
      { rewrite Ht'. cbn [app]. rewrite skip_ws_head by (simpl in *; tauto).
        simpl in Hin. simpl.
        repeat (destruct Hin as [<-|Hin]; [reflexivity|]). contradiction. }
      rewrite Hafter.
      change (stringify v :: map stringify l) with (map stringify (v :: l)).
      rewrite parse_elements_stringify;
        [reflexivity | assumption | assumption | discriminate |].
      cbn [map] in *. cbn [List.length] in Hfuel. rewrite length_app in Hfuel.
      cbn [List.length] in Hfuel. lia.
  - rewrite parse_value_eq. rewrite stringify_object in *. cbn [app] in *.
    rewrite skip_ws_head by (simpl; tauto).
    change (123 =? 123) with true. cbv iota.
    destruct l as [|[k v] l].
    + reflexivity.
    + cbn [number_free] in Hnf.
      rewrite <- app_assoc. cbn [app].
      assert (Hafter : after 125 (skip_ws (join (map member_text ((k, v) :: l))
                                           ++ 125 :: rest)) = None).
      { cbn [map]. rewrite join_cons. unfold member_text at 1. unfold quote.
        cbn [app fst].
        rewrite skip_ws_head by (simpl; tauto). reflexivity. }
      rewrite Hafter.
      rewrite parse_members_stringify;
        [reflexivity | assumption | assumption | discriminate |].
      cbn [map] in *. cbn [List.length] in Hfuel. rewrite length_app in Hfuel.
      cbn [List.length] in Hfuel. lia.
Qed.

Theorem parse_stringify (v : JSON) :
  number_free v = true -> parse (stringify v) = Some v.
Proof.
  intros Hnf. unfold parse.
  rewrite <- (app_nil_r (stringify v)) at 2.
  rewrite (parse_value_stringify v Hnf) by lia. reflexivity.
Qed.

(** ** [parse] gives [parse_value] all the fuel it can use *)

(** The end of a case on what a parser leaves: the result is the pair in hand,
    and the lengths are in the context. *)
Ltac rest_is_shorter :=
  let E := fresh "E" in intros E; injection E as _ <-; lia.

Lemma skip_ws_length (s : jsstring) :
  (List.length (skip_ws s) <= List.length s)%nat.
Proof.
  induction s as [|c s IH]; simpl; [lia|].
  destruct (is_ws c); simpl; lia.
Qed.

Lemma strip_length (lit s r : jsstring) :
  strip lit s = Some r -> List.length s = (List.length lit + List.length r)%nat.
Proof.
  revert s; induction lit as [|x lit IH]; intros s; simpl.
  - intros E. injection E as <-. reflexivity.
  - destruct s as [|y s]; [discriminate|].
    destruct (x =? y); [|discriminate]. intros H. apply IH in H. simpl. lia.
Qed.

Lemma after_length (c : char16) (s r : jsstring) :
  after c s = Some r -> List.length s = S (List.length r).
Proof.
  destruct s as [|x s]; simpl; [discriminate|].
  destruct (x =? c); congruence.
Qed.

Lemma consfst_length (c : char16) (o : option (jsstring * jsstring))
    (k r : jsstring) (n : nat) :
  (forall k' r', o = Some (k', r') -> (List.length r' < n)%nat) ->
  consfst c o = Some (k, r) -> (List.length r < n)%nat.
Proof.
  destruct o as [[k' r']|]; simpl; [|discriminate].
  intros H E. injection E as _ <-. eapply H. reflexivity.
Qed.

Lemma parse_chars_length (s k r : jsstring) :
  parse_chars s = Some (k, r) -> (List.length r < List.length s)%nat.
Proof.
  remember (List.length s) as n eqn:Hn.
  assert (Hle : (List.length s <= n)%nat) by lia. clear Hn.
  revert s k r Hle.
  induction n as [|n IH]; intros [|c s] k r Hle; simpl in *; try discriminate; try lia.
  assert (IH' : forall t, (List.length t <= n)%nat ->
                forall k' r', parse_chars t = Some (k', r') ->
                              (List.length r' < S n)%nat).
  { intros t Ht k' r' E. apply IH in E; [lia | assumption]. }
  destruct (c =? 34).
  - rest_is_shorter.
  - destruct (c =? 92).
    + destruct s as [|e s]; [discriminate|].
      destruct (e =? 117).
      * destruct s as [|a [|b [|c' [|d s]]]]; try discriminate.
        destruct (hex4 a b c' d); [|discriminate].
        apply consfst_length. apply IH'. simpl in Hle. lia.
      * destruct (unescape e); [|discriminate].
        apply consfst_length. apply IH'. simpl in Hle. lia.
    + destruct (c <? 32); [discriminate|].
      apply consfst_length. apply IH'. lia.
Qed.

Lemma digits_length (s ds r : jsstring) :
  digits s = (ds, r) -> List.length s = (List.length ds + List.length r)%nat.
Proof.
  revert ds r; induction s as [|c s IH]; simpl; intros ds r E.
  - injection E as <- <-. reflexivity.
  - destruct (is_digit c).
    + destruct (digits s) as [ds' r'] eqn:D. injection E as <- <-.
      simpl. rewrite (IH _ _ eq_refl). reflexivity.
    + injection E as <- <-. reflexivity.
Qed.

Lemma digits1_length (s ds r : jsstring) :
  digits1 s = Some (ds, r) -> (List.length r <= List.length s)%nat.
Proof.
  unfold digits1. destruct (digits s) as [[|d ds'] r'] eqn:D; [discriminate|].
  intros E. injection E as <- <-. apply digits_length in D. lia.
Qed.

Lemma optional_length (p : char16 -> bool) (s o r : jsstring) :
  optional p s = (o, r) -> (List.length r <= List.length s)%nat.
Proof.
  destruct s as [|c s]; simpl.
  - intros E. injection E as <- <-. simpl. lia.
  - destruct (p c); intros E; injection E as <- <-; simpl; lia.
Qed.

Lemma number_exponent_length (acc s lexeme r : jsstring) :
  number_exponent acc s = Some (lexeme, r) ->
  (List.length r <= List.length s)%nat.
Proof.
  destruct s as [|e s]; simpl.
  - intros E. injection E as <- <-. simpl. lia.
  - destruct ((e =? 101) || (e =? 69)).
    + destruct (optional _ s) as [sg r1] eqn:O.
      destruct (digits1 r1) as [[ds r2]|] eqn:D; [|discriminate].
      intros E. injection E as <- <-.
      apply optional_length in O. apply digits1_length in D. lia.
    + intros E. injection E as <- <-. simpl. lia.
Qed.

Lemma number_fraction_length (acc s lexeme r : jsstring) :
  number_fraction acc s = Some (lexeme, r) ->
  (List.length r <= List.length s)%nat.
Proof.
  destruct s as [|c s]; cbn [number_fraction].
  - apply number_exponent_length.
  - destruct (c =? 46).
    + destruct (digits1 s) as [[ds r1]|] eqn:D; [|discriminate].
      intros E. apply number_exponent_length in E.
      apply digits1_length in D. simpl. lia.
    + apply number_exponent_length.
Qed.

Lemma parse_number_length (s lexeme r : jsstring) :
  parse_number s = Some (lexeme, r) -> (List.length r < List.length s)%nat.
Proof.
  unfold parse_number.
  destruct (optional _ s) as [sign s1] eqn:O. apply optional_length in O.
  destruct s1 as [|c s1]; [discriminate|]. simpl in O.
  destruct (c =? 48).
  - intros E. apply number_fraction_length in E. lia.
  - destruct (is_digit c); [|discriminate].
    destruct (digits s1) as [ds r1] eqn:D. apply digits_length in D.
    intros E. apply number_fraction_length in E. lia.
Qed.

(** What a parser leaves is shorter than what it was given. *)
Lemma parse_length (fuel : nat) :
  (forall s v r, parse_value fuel s = Some (v, r) ->
                 (List.length r < List.length s)%nat) /\
  (forall s l r, parse_elements fuel s = Some (l, r) ->
                 (List.length r < List.length s)%nat) /\
  (forall s l r, parse_members fuel s = Some (l, r) ->
                 (List.length r < List.length s)%nat).
Proof.
  induction fuel as [|fuel [IHv [IHe IHm]]]; [repeat split; discriminate|].
  repeat split.
  - intros s v r. rewrite parse_value_eq.
    pose proof (skip_ws_length s) as Hs.
    destruct (skip_ws s) as [|c t]; [discriminate|]. simpl in Hs.
    pose proof (skip_ws_length t) as Ht.
    destruct (c =? 123).
    { destruct (after 125 (skip_ws t)) as [r'|] eqn:A.
      - apply after_length in A. rest_is_shorter.
      - destruct (parse_members fuel t) as [[l r']|] eqn:Pm; [|discriminate].
        apply IHm in Pm. rest_is_shorter. }
    destruct (c =? 91).
    { destruct (after 93 (skip_ws t)) as [r'|] eqn:A.
      - apply after_length in A. rest_is_shorter.
      - destruct (parse_elements fuel t) as [[l r']|] eqn:Pe; [|discriminate].
        apply IHe in Pe. rest_is_shorter. }
    destruct (c =? 34).
    { destruct (parse_chars t) as [[k r']|] eqn:Pc; [|discriminate].
      apply parse_chars_length in Pc. rest_is_shorter. }
    destruct (c =? 116).
    { destruct (strip _ t) as [r'|] eqn:St; [|discriminate].
      apply strip_length in St. rest_is_shorter. }
    destruct (c =? 102).
    { destruct (strip _ t) as [r'|] eqn:St; [|discriminate].
      apply strip_length in St. rest_is_shorter. }
    destruct (c =? 110).
    { destruct (strip _ t) as [r'|] eqn:St; [|discriminate].
      apply strip_length in St. rest_is_shorter. }
    destruct (parse_number (c :: t)) as [[lexeme r']|] eqn:Pn; [|discriminate].
    apply parse_number_length in Pn. simpl in Pn.
    rest_is_shorter.
  - intros s l r. rewrite parse_elements_eq.
    destruct (parse_value fuel s) as [[v r1]|] eqn:Pv; [|discriminate].
    apply IHv in Pv. pose proof (skip_ws_length r1) as Hs.
    destruct (skip_ws r1) as [|c t]; [discriminate|]. simpl in Hs.
    destruct (c =? 44).
    + destruct (parse_elements fuel t) as [[l' r']|] eqn:Pe; [|discriminate].
      apply IHe in Pe. rest_is_shorter.
    + destruct (c =? 93); [|discriminate].
      rest_is_shorter.
  - intros s l r. rewrite parse_members_eq.
    pose proof (skip_ws_length s) as Hs.
    destruct (after 34 (skip_ws s)) as [t|] eqn:A; [|discriminate].
    apply after_length in A.
    destruct (parse_chars t) as [[k r1]|] eqn:Pc; [|discriminate].
    apply parse_chars_length in Pc. pose proof (skip_ws_length r1) as Hs1.
    destruct (after 58 (skip_ws r1)) as [r2|] eqn:A2; [|discriminate].
    apply after_length in A2.
    destruct (parse_value fuel r2) as [[v r3]|] eqn:Pv; [|discriminate].
    apply IHv in Pv. pose proof (skip_ws_length r3) as Hs3.
    destruct (skip_ws r3) as [|c r4]; [discriminate|]. simpl in Hs3.
    destruct (c =? 44).
    + destruct (parse_members fuel r4) as [[l' r5]|] eqn:Pm; [|discriminate].
      apply IHm in Pm. rest_is_shorter.
    + destruct (c =? 125); [|discriminate].
      rest_is_shorter.
Qed.

(** Past twice the length of the text, one more unit of fuel changes
    nothing. *)
Lemma parse_fuel_step (fuel : nat) :
  (forall s, (2 * List.length s + 1 <= fuel)%nat ->
             parse_value (S fuel) s = parse_value fuel s) /\
  (forall s, (2 * List.length s + 2 <= fuel)%nat ->
             parse_elements (S fuel) s = parse_elements fuel s) /\
  (forall s, (2 * List.length s + 2 <= fuel)%nat ->
             parse_members (S fuel) s = parse_members fuel s).
Proof.
  induction fuel as [|fuel [IHv [IHe IHm]]]; [repeat split; intros; lia|].
  repeat split.
  - intros s Hf. rewrite (parse_value_eq (S fuel)), (parse_value_eq fuel).
    pose proof (skip_ws_length s) as Hs.
    destruct (skip_ws s) as [|c t]; [reflexivity|]. simpl in Hs.
    rewrite IHm, IHe by lia. reflexivity.
  - intros s Hf. rewrite (parse_elements_eq (S fuel)), (parse_elements_eq fuel).
    rewrite IHv by lia.
    destruct (parse_value fuel s) as [[v r1]|] eqn:Pv; [|reflexivity].
    apply (proj1 (parse_length fuel)) in Pv.
    pose proof (skip_ws_length r1) as Hs.
    destruct (skip_ws r1) as [|c t]; [reflexivity|]. simpl in Hs.
    rewrite IHe by lia. reflexivity.
  - intros s Hf. rewrite (parse_members_eq (S fuel)), (parse_members_eq fuel).
    pose proof (skip_ws_length s) as Hs.
    destruct (after 34 (skip_ws s)) as [t|] eqn:A; [|reflexivity].
    apply after_length in A.
    destruct (parse_chars t) as [[k r1]|] eqn:Pc; [|reflexivity].
    apply parse_chars_length in Pc. pose proof (skip_ws_length r1) as Hs1.
    destruct (after 58 (skip_ws r1)) as [r2|] eqn:A2; [|reflexivity].
    apply after_length in A2.
    rewrite IHv by lia.
    destruct (parse_value fuel r2) as [[v r3]|] eqn:Pv; [|reflexivity].
    apply (proj1 (parse_length fuel)) in Pv. pose proof (skip_ws_length r3) as Hs3.
    destruct (skip_ws r3) as [|c r4]; [reflexivity|]. simpl in Hs3.
    rewrite IHm by lia. reflexivity.
Qed.

(** The result of [parse_value] on a text does not depend on the fuel, from
    the fuel [parse] gives it on: a [None] of [parse] is a text that is no
    JSON, never a lack of fuel. *)
Theorem parse_value_fuel (s : jsstring) (fuel : nat) :
  (2 * List.length s + 2 <= fuel)%nat ->
  parse_value fuel s = parse_value (2 * List.length s + 2) s.
Proof.
  intros H.
  replace fuel with ((fuel - (2 * List.length s + 2)) + (2 * List.length s + 2))%nat
    by lia.
  generalize (fuel - (2 * List.length s + 2))%nat as k. clear H.
  induction k as [|k IH]; [reflexivity|].
  cbn [Nat.add]. rewrite (proj1 (parse_fuel_step _)) by lia. exact IH.
Qed.

Close Scope N_scope.

(** ** The codec *)

Lemma restoreFile_toStoreData (f : IRecentFile) :
  restoreFile (fileToStoreData f) = Some f.
Proof. destruct f as [[s]]. reflexivity. Qed.

Lemma restorePlace_toStoreData (p : IRecentPlace) :
  restorePlace (placeToStoreData p) = Some p.
Proof. destruct p as [[s] | id [s]]; reflexivity. Qed.

Lemma restoreEntries_map {A : Type} (enc : A -> JSON) (dec : JSON -> option A)
    (l : list A) :
  (forall a, dec (enc a) = Some a) -> restoreEntries dec (map enc l) = Some l.
Proof.
  intros H. induction l as [|a l IH]; simpl; [reflexivity|].
  now rewrite H, IH.
Qed.

Lemma decode_toStoreData (h : IRecentlyOpened) : decode (toStoreData h) = Some h.
Proof.
  destruct h as [ws fs]. unfold decode, toStoreData.
  change (get _ (js "files")) with (Some (JArray (map fileToStoreData fs))).
  change (get _ (js "workspaces")) with (Some (JArray (map placeToStoreData ws))).
  cbn [restoreField].
  rewrite (restoreEntries_map _ _ _ restoreFile_toStoreData).
  rewrite (restoreEntries_map _ _ _ restorePlace_toStoreData).
  reflexivity.
Qed.

Lemma forallb_map_true {A B : Type} (f : A -> B) (p : B -> bool) (l : list A) :
  (forall a, p (f a) = true) -> forallb p (map f l) = true.
Proof.
  intros H. induction l as [|a l IH]; simpl; [reflexivity|].
  now rewrite H, IH.
Qed.

Lemma toStoreData_number_free (h : IRecentlyOpened) :
  number_free (toStoreData h) = true.
Proof.
  destruct h as [ws fs]. cbn [toStoreData number_free forallb snd workspaces files].
  rewrite !forallb_map_true; [reflexivity | |].
  - intros [[s] | id [s]]; reflexivity.
  - intros [[s]]; reflexivity.
Qed.

(** The text [saveRecentlyOpened] stores reads back as the history it was
    made from. *)
Lemma parse_stored (h : IRecentlyOpened) :
  parse (stringify (toStoreData h)) = Some (toStoreData h).
Proof. apply parse_stringify, toStoreData_number_free. Qed.

(** ** The storage service *)

Lemma scope_eqb_refl (s : StorageScope.t) : StorageScope.eqb s s = true.
Proof. destruct s; reflexivity. Qed.

Lemma storage_get_store (st : Storage) (key value : jsstring) (scope : StorageScope.t) :
  storage_get (storage_store st key value scope) key scope = Some value.
Proof.
  unfold storage_store. cbn [storage_get]. unfold same_slot. cbn [fst snd].
  now rewrite scope_eqb_refl, streq_refl.
Qed.

(** ** The history through the storage *)

(** [getRecentlyOpened], case by case. *)
Lemma getRecentlyOpened_eq (w : World) :
  getRecentlyOpened w =
  match stored w with
  | None => (Returned emptyHistory, w)
  | Some [] => (Returned emptyHistory, w)
  | Some (c :: raw) =>
      match parse (c :: raw) with
      | None => (Thrown SyntaxError, w)
      | Some data =>
          match decode data with
          | Some h => (Returned h, w)
          | None => (Returned emptyHistory, after_call (emit LogWarn) w)
          end
      end
  end.
Proof.
  unfold getRecentlyOpened, bind, storageService_get, stored.
  destruct (storage_get (storage w) RECENTLY_OPENED_KEY StorageScope.GLOBAL)
    as [[|c raw]|];
    try reflexivity.
  cbn [truthy]. unfold JSON_parse.
  destruct (parse (c :: raw)) as [data|]; [|reflexivity].
  unfold ret at 1. unfold restoreRecentlyOpened.
  destruct (decode data); reflexivity.
Qed.

Lemma stringify_toStoreData_nonempty (h : IRecentlyOpened) :
  exists c raw, stringify (toStoreData h) = c :: raw.
Proof. unfold toStoreData. rewrite stringify_object. eauto. Qed.

Lemma stored_save (h : IRecentlyOpened) (w : World) :
  stored (after_call (saveRecentlyOpened h) w) = Some (stringify (toStoreData h)).
Proof.
  unfold stored, after_call, saveRecentlyOpened, storageService_store.
  cbn [snd storage]. apply storage_get_store.
Qed.

(** What [saveRecentlyOpened] has stored, [getRecentlyOpened] returns, and
    logs nothing. *)
Lemma getRecentlyOpened_save (h : IRecentlyOpened) (w : World) :
  getRecentlyOpened (after_call (saveRecentlyOpened h) w) =
  (Returned h, after_call (saveRecentlyOpened h) w).
Proof.
  rewrite getRecentlyOpened_eq, stored_save.
  destruct (stringify_toStoreData_nonempty h) as [c [raw E]].
  rewrite E, <- E, parse_stored, decode_toStoreData. reflexivity.
Qed.

Lemma history_save (h : IRecentlyOpened) (w : World) :
  history (after_call (saveRecentlyOpened h) w) = Some h.
Proof. unfold history. now rewrite getRecentlyOpened_save. Qed.

Lemma saveRecentlyOpened_eq (h : IRecentlyOpened) (w : World) :
  saveRecentlyOpened h w =
  (Returned tt,
   mkWorld (storage_store (storage w) RECENTLY_OPENED_KEY
                          (stringify (toStoreData h)) StorageScope.GLOBAL)
           (windowConfig w) (origin w) (workbenchState w) (workspace w)
           (trace w ++ [StorageStore RECENTLY_OPENED_KEY
                                     (stringify (toStoreData h)) StorageScope.GLOBAL])).
Proof. reflexivity. Qed.

(** [addRecentlyOpened] and [removeFromRecentlyOpened] in a world where
    [getRecentlyOpened] returns [h] and leaves the world [w1]. *)
Lemma addRecentlyOpened_eq (recents : list IRecent) (w w1 : World)
    (h : IRecentlyOpened) :
  getRecentlyOpened w = (Returned h, w1) ->
  addRecentlyOpened recents w =
  saveRecentlyOpened (fold_left addRecent recents h) w1.
Proof. intros E. unfold addRecentlyOpened, bind. now rewrite E. Qed.

Lemma removeFromRecentlyOpened_eq (paths : list URI) (w w1 : World)
    (h : IRecentlyOpened) :
  getRecentlyOpened w = (Returned h, w1) ->
  removeFromRecentlyOpened paths w =
  saveRecentlyOpened (doRemoveFromRecentlyOpened h paths) w1.
Proof. intros E. unfold removeFromRecentlyOpened, bind. now rewrite E. Qed.

(** When [getRecentlyOpened] returns, the world it leaves differs from the
    one it ran in by a warning at most. *)
Lemma getRecentlyOpened_returned (w w1 : World) (h : IRecentlyOpened) :
  getRecentlyOpened w = (Returned h, w1) ->
  history w = Some h /\ storage w1 = storage w /\
  (w1 = w \/ w1 = after_call (emit LogWarn) w).
Proof.
  intros E. unfold history. rewrite E. split; [reflexivity|].
  rewrite getRecentlyOpened_eq in E.
  destruct (stored w) as [[|c raw]|].
  - injection E as _ <-. auto.
  - destruct (parse (c :: raw)) as [data|]; [|discriminate].
    destruct (decode data); injection E as _ <-; auto.
  - injection E as _ <-. auto.
Qed.

Lemma history_returned (w : World) (h : IRecentlyOpened) :
  history w = Some h -> exists w1, getRecentlyOpened w = (Returned h, w1).
Proof.
  unfold history. destruct (getRecentlyOpened w) as [[h'|e] w1] eqn:E; simpl;
    [|discriminate].
  intros H. injection H as <-. eauto.
Qed.

Lemma history_add (recents : list IRecent) (w : World) (h : IRecentlyOpened) :
  history w = Some h ->
  history (after_call (addRecentlyOpened recents) w) =
  Some (fold_left addRecent recents h).
Proof.
  intros H. destruct (history_returned w h H) as [w1 E].
  unfold after_call. rewrite (addRecentlyOpened_eq recents w w1 h E). apply history_save.
Qed.

Lemma history_remove (paths : list URI) (w : World) (h : IRecentlyOpened) :
  history w = Some h ->
  history (after_call (removeFromRecentlyOpened paths) w) =
  Some (doRemoveFromRecentlyOpened h paths).
Proof.
  intros H. destruct (history_returned w h H) as [w1 E].
  unfold after_call. rewrite (removeFromRecentlyOpened_eq paths w w1 h E).
  apply history_save.
Qed.

(** ** The routing decision *)

(** C1. [shouldOpenNewWindow] is the precedence table of [decideNewWindow]:
    a function of the options and of the value of the setting alone, true
    when [forceNewWindow] is set and [forceReuseWindow] is not, else the
    setting ['on'] or ['off'] when neither flag is set, and false in every
    other case; the three examples of the table are as the table says. *)
Theorem shouldOpenNewWindow_table :
  (forall windowConfig _options,
     shouldOpenNewWindow windowConfig _options =
     decideNewWindow (optionsOrDefault _options) (openFoldersSetting windowConfig)) /\
  shouldOpenNewWindow (Some (mkWindowSettings (Some (js "on"))))
                      (Some (mkOpenSettings None (Some true))) = false /\
  shouldOpenNewWindow (Some (mkWindowSettings (Some (js "on"))))
                      (Some noOptions) = true /\
  shouldOpenNewWindow (Some (mkWindowSettings (Some (js "default"))))
                      (Some noOptions) = false.
Proof.
  split; [|repeat split; reflexivity].
  intros windowConfig _options.
  unfold shouldOpenNewWindow, decideNewWindow, optionsOrDefault, openFoldersSetting.
  set (o := match _options with Some o => o | None => noOptions end).
  assert (E : (if truthy match windowConfig with
                         | Some c => openFoldersInNewWindow c
                         | None => None
                         end
               then match match windowConfig with
                          | Some c => openFoldersInNewWindow c
                          | None => None
                          end with
                    | Some s => s
                    | None => js "default"
                    end
               else js "default") =
              match windowConfig with
              | Some c => match openFoldersInNewWindow c with
                          | Some (x :: s) => x :: s
                          | _ => js "default"
                          end
              | None => js "default"
              end).
  { destruct windowConfig as [[[[|x s]|]]|]; reflexivity. }
  rewrite E. clear E.
  destruct (truthy_bool (forceNewWindow o)), (truthy_bool (forceReuseWindow o));
    cbn [andb negb]; try reflexivity.
  match goal with |- context [streq ?c (js "on")] =>
    destruct (streq c (js "on")) eqn:Hon; destruct (streq c (js "off")) eqn:Hoff
  end; try reflexivity.
Qed.

(** C2, as the code has it: with both flags set, [forceReuseWindow] wins
    and the decision is false, whatever the setting. *)
Theorem shouldOpenNewWindow_both_flags (windowConfig : option IWindowSettings) :
  shouldOpenNewWindow windowConfig
                      (Some (mkOpenSettings (Some true) (Some true))) = false.
Proof.
  unfold shouldOpenNewWindow.
  cbn [truthy_bool forceNewWindow forceReuseWindow andb negb].
  reflexivity.
Qed.

(** C2 as stated fails: with both flags set and the setting ['on'], the
    decision is not true. *)
Lemma both_flags_set_not_new_window :
  shouldOpenNewWindow (Some (mkWindowSettings (Some (js "on"))))
                      (Some (mkOpenSettings (Some true) (Some true))) <> true.
Proof. discriminate. Qed.

(** ** Reading the history *)

(** C3 as stated fails: with the text [{] stored, [getRecentlyOpened]
    throws the [SyntaxError] of [JSON.parse]; it logs nothing and does not
    return the empty history. *)
Lemma getRecentlyOpened_malformed_throws :
  let w := worldWith [(StorageScope.GLOBAL, RECENTLY_OPENED_KEY, js "{")] in
  getRecentlyOpened w = (Thrown SyntaxError, w) /\
  fst (getRecentlyOpened w) <> Returned emptyHistory.
Proof. cbv zeta. split; [reflexivity | discriminate]. Qed.

(** C3, as the code has it: with nothing stored, or the empty text,
    [getRecentlyOpened] returns the empty history; with a text that is JSON
    it returns what the codec decodes, and on a decode failure logs a
    warning and returns the empty history; with a text that is no JSON it
    throws the [SyntaxError] of [JSON.parse]. *)
Theorem getRecentlyOpened_outcome (w : World) :
  match stored w with
  | None | Some [] => getRecentlyOpened w = (Returned emptyHistory, w)
  | Some raw =>
      match parse raw with
      | Some data =>
          match decode data with
          | Some h => getRecentlyOpened w = (Returned h, w)
          | None =>
              exists w1,
                getRecentlyOpened w = (Returned emptyHistory, w1) /\
                trace w1 = trace w ++ [LogWarn] /\ storage w1 = storage w
          end
      | None => getRecentlyOpened w = (Thrown SyntaxError, w)
      end
  end.
Proof.
  rewrite getRecentlyOpened_eq.
  destruct (stored w) as [[|c raw]|]; try reflexivity.
  destruct (parse (c :: raw)) as [data|]; [|reflexivity].
  destruct (decode data); [reflexivity|].
  eexists. split; [reflexivity|]. split; reflexivity.
Qed.

(** ** Adding and removing entries *)

Lemma somePath_single (x u : URI) :
  somePath [x] u = streq (toString x) (toString u).
Proof. unfold somePath. cbn [existsb]. apply orb_false_r. Qed.

Lemma somePath_matches (paths : list URI) (u : URI) :
  somePath paths u = true <-> matches paths u.
Proof.
  unfold somePath, matches. rewrite existsb_exists, in_map_iff. split.
  - intros [x [Hin Heq]]. apply streq_spec in Heq. eauto.
  - intros [x [Heq Hin]]. exists x. split; [assumption|]. now apply streq_spec.
Qed.

Lemma somePath_not_matches (paths : list URI) (u : URI) :
  somePath paths u = false <-> ~ matches paths u.
Proof.
  rewrite <- somePath_matches. destruct (somePath paths u); split; congruence.
Qed.

Lemma doRemove_single (h : IRecentlyOpened) (x : URI) :
  doRemoveFromRecentlyOpened h [x] = withoutLocation (toString x) h.
Proof.
  unfold doRemoveFromRecentlyOpened, withoutLocation. f_equal;
    apply filter_ext; intros a; now rewrite somePath_single.
Qed.

(** The body of the loop of [addRecentlyOpened] is the specification's
    step. *)
Lemma addRecent_addEntry (h : IRecentlyOpened) (r : IRecent) :
  addRecent h r = addEntry h r.
Proof.
  destruct r as [[u] | [u | id u]]; unfold addRecent, addEntry;
    cbn [fileUri recentUri placeUri]; rewrite doRemove_single; reflexivity.
Qed.

Lemma fold_addRecent (recents : list IRecent) (h : IRecentlyOpened) :
  fold_left addRecent recents h = fold_left addEntry recents h.
Proof.
  revert h. induction recents as [|r recents IH]; intros h; [reflexivity|].
  cbn [fold_left]. now rewrite addRecent_addEntry, IH.
Qed.

Lemma locations_withoutLocation (x : jsstring) (h : IRecentlyOpened) :
  locations (withoutLocation x h) =
  filter (fun s => negb (streq x s)) (locations h).
Proof.
  unfold locations, fileLocations, placeLocations, withoutLocation.
  cbn [files workspaces]. now rewrite filter_app, !filter_map_swap.
Qed.

Lemma locations_doRemove (h : IRecentlyOpened) (paths : list URI) :
  locations (doRemoveFromRecentlyOpened h paths) =
  filter (fun s => negb (existsb (fun p => streq (toString p) s) paths))
         (locations h).
Proof.
  unfold locations, fileLocations, placeLocations, doRemoveFromRecentlyOpened.
  cbn [files workspaces]. now rewrite filter_app, !filter_map_swap.
Qed.

Lemma locations_prepend (r : IRecent) (h : IRecentlyOpened) :
  Permutation (toString (recentUri r) :: locations h) (locations (prepend r h)).
Proof.
  destruct r as [f | p]; unfold locations, fileLocations, placeLocations;
    cbn [prepend files workspaces map recentUri].
  - reflexivity.
  - apply Permutation_middle.
Qed.

Lemma not_in_without (x : jsstring) (l : list jsstring) :
  ~ In x (filter (fun s => negb (streq x s)) l).
Proof.
  intros H. apply filter_In in H. destruct H as [_ H].
  now rewrite streq_refl in H.
Qed.

Lemma NoDup_addEntry (h : IRecentlyOpened) (r : IRecent) :
  NoDup (locations h) -> NoDup (locations (addEntry h r)).
Proof.
  intros H. unfold addEntry.
  eapply Permutation_NoDup; [apply locations_prepend|].
  rewrite locations_withoutLocation. constructor.
  - apply not_in_without.
  - now apply NoDup_filter.
Qed.

Lemma NoDup_fold_addEntry (recents : list IRecent) (h : IRecentlyOpened) :
  NoDup (locations h) -> NoDup (locations (fold_left addEntry recents h)).
Proof.
  revert h. induction recents as [|r recents IH]; intros h H; [assumption|].
  cbn [fold_left]. apply IH. now apply NoDup_addEntry.
Qed.

Lemma NoDup_doRemove (h : IRecentlyOpened) (paths : list URI) :
  NoDup (locations h) -> NoDup (locations (doRemoveFromRecentlyOpened h paths)).
Proof. intros H. rewrite locations_doRemove. now apply NoDup_filter. Qed.

Lemma history_add_one (r : IRecent) (w : World) (h : IRecentlyOpened) :
  history w = Some h ->
  history (after_call (addRecentlyOpened [r]) w) = Some (addEntry h r).
Proof.
  intros H. rewrite (history_add [r] w h H). cbn [fold_left].
  now rewrite addRecent_addEntry.
Qed.

(** The start of the service adds the folder or the workspace the window
    shows, and nothing when it shows none. *)
Lemma history_startup (w : World) (h : IRecentlyOpened) :
  history w = Some h ->
  history (after_call addWorkspaceToRecentlyOpened w) =
  Some (match activeWorkspace w with
        | Some r => addEntry h r
        | None => h
        end).
Proof.
  intros H. unfold after_call, addWorkspaceToRecentlyOpened, activeWorkspace.
  destruct (workbenchState w).
  - exact H.
  - destruct (workspace_folders (workspace w)) as [|f fs]; [exact H|].
    now apply history_add_one.
  - destruct (workspace_configuration (workspace w)) as [c|]; [|exact H].
    now apply history_add_one.
Qed.

(** In every world the calls lead to, [getRecentlyOpened] returns a history,
    and no two entries of it have the same location. *)
Lemma reachable_history (w : World) :
  reachable w -> exists h, history w = Some h /\ NoDup (locations h).
Proof.
  induction 1 as [w E | w c _ [h [Hh Hnd]]].
  - exists emptyHistory. split; [assumption | constructor].
  - destruct c as [recents | paths |]; cbn [call].
    + exists (fold_left addEntry recents h). split.
      * rewrite <- fold_addRecent. now apply history_add.
      * now apply NoDup_fold_addEntry.
    + exists (doRemoveFromRecentlyOpened h paths). split.
      * now apply history_remove.
      * now apply NoDup_doRemove.
    + exists (match activeWorkspace w with Some r => addEntry h r | None => h end).
      split; [now apply history_startup|].
      destruct (activeWorkspace w); [now apply NoDup_addEntry | assumption].
Qed.

(** The locations of one kind are among those of the list the kind is kept
    in, in the same order. *)
Lemma NoDup_flat_map_sub {A B : Type} (f : A -> B) (g : A -> list B) (l : list A) :
  (forall a, g a = [f a] \/ g a = []) ->
  NoDup (map f l) -> NoDup (flat_map g l).
Proof.
  intros Hg. induction l as [|a l IH]; cbn [map flat_map]; intros H; [constructor|].
  apply NoDup_cons_iff in H. destruct H as [Hn Hl].
  destruct (Hg a) as [E | E]; rewrite E; cbn [app]; [|now apply IH].
  constructor; [|now apply IH].
  intros Hin. apply Hn. apply in_flat_map in Hin. destruct Hin as [b [Hb Hin]].
  destruct (Hg b) as [E' | E']; rewrite E' in Hin; [|contradiction].
  destruct Hin as [<- | []]. now apply in_map.
Qed.

Lemma NoDup_kinds (h : IRecentlyOpened) :
  NoDup (locations h) ->
  NoDup (fileLocations h) /\ NoDup (folderLocations h) /\
  NoDup (workspaceLocations h).
Proof.
  unfold locations. intros H. split; [now apply NoDup_app_remove_r in H|].
  apply NoDup_app_remove_l in H. unfold placeLocations in H.
  split; (eapply NoDup_flat_map_sub; [|exact H]); intros [u | id u]; auto.
Qed.

Lemma filter_without (x : jsstring) (l : list jsstring) :
  filter (streq x) (filter (fun s => negb (streq x s)) l) = [].
Proof.
  induction l as [|s l IH]; [reflexivity|]. cbn [filter].
  destruct (streq x s) eqn:E; cbn [negb filter]; [exact IH|].
  now rewrite E.
Qed.

Lemma fileLocations_withoutLocation (x : jsstring) (h : IRecentlyOpened) :
  fileLocations (withoutLocation x h) =
  filter (fun s => negb (streq x s)) (fileLocations h).
Proof.
  unfold fileLocations, withoutLocation. cbn [files]. now rewrite filter_map_swap.
Qed.

Lemma placeLocations_withoutLocation (x : jsstring) (h : IRecentlyOpened) :
  placeLocations (withoutLocation x h) =
  filter (fun s => negb (streq x s)) (placeLocations h).
Proof.
  unfold placeLocations, withoutLocation. cbn [workspaces].
  now rewrite filter_map_swap.
Qed.

(** After an entry is added, it is the one entry of its location. *)
Lemma occurrences_addEntry (h : IRecentlyOpened) (r : IRecent) :
  occurrences (toString (recentUri r)) (addEntry h r) = 1.
Proof.
  unfold occurrences, addEntry, locations.
  set (x := toString (recentUri r)).
  assert (Hf : filter (streq x) (fileLocations (withoutLocation x h)) = [])
    by (rewrite fileLocations_withoutLocation; apply filter_without).
  assert (Hp : filter (streq x) (placeLocations (withoutLocation x h)) = [])
    by (rewrite placeLocations_withoutLocation; apply filter_without).
  rewrite filter_app.
  destruct r as [f | p]; unfold fileLocations, placeLocations in *;
    cbn [prepend files workspaces map filter recentUri] in *; fold x;
    rewrite streq_refl, Hf, Hp; reflexivity.
Qed.

(** ** The claims on the history *)

(** C5. [addRecentlyOpened] applies the specification's step to its entries
    in the order given, on the history [getRecentlyOpened] returned, and
    then stores the result with one call of [storageService.store], the last
    thing it does.  From the empty history the entries [A] and then [B]
    leave [B] in front of [A] (with [A] gone when it has the location of
    [B]); and [add([Folder(a)])] followed by [add([Folder(b), Folder(a)])]
    leaves the workspaces [a, b]. *)
Theorem addRecentlyOpened_in_order (recents : list IRecent) (w w1 : World)
    (h : IRecentlyOpened) :
  getRecentlyOpened w = (Returned h, w1) ->
  let h' := fold_left addEntry recents h in
  let blob := stringify (toStoreData h') in
  let w' := after_call (addRecentlyOpened recents) w in
  addRecentlyOpened recents w = (Returned tt, w') /\
  trace w' = trace w1 ++ [StorageStore RECENTLY_OPENED_KEY blob StorageScope.GLOBAL] /\
  stored w' = Some blob /\
  history w' = Some h' /\
  (forall A B : IRecentPlace,
     toString (placeUri A) <> toString (placeUri B) ->
     fold_left addEntry [OfPlace A; OfPlace B] emptyHistory =
     mkRecentlyOpened [B; A] []) /\
  (forall A B : IRecentFile,
     toString (fileUri A) <> toString (fileUri B) ->
     fold_left addEntry [OfFile A; OfFile B] emptyHistory =
     mkRecentlyOpened [] [B; A]) /\
  (forall A B : IRecent,
     fold_left addEntry [A; B] emptyHistory =
     prepend B (withoutLocation (toString (recentUri B)) (prepend A emptyHistory))) /\
  history (after_call (addRecentlyOpened [folder "file:///b"; folder "file:///a"])
             (after_call (addRecentlyOpened [folder "file:///a"]) freshWorld)) =
  Some (mkRecentlyOpened [RecentFolder (mkURI (js "file:///a"));
                          RecentFolder (mkURI (js "file:///b"))] []).
Proof.
  intros E h' blob w'.
  assert (Hrun : addRecentlyOpened recents w = saveRecentlyOpened h' w1).
  { rewrite (addRecentlyOpened_eq recents w w1 h E), fold_addRecent. reflexivity. }
  assert (Hw' : w' = after_call (saveRecentlyOpened h') w1).
  { unfold w', after_call. now rewrite Hrun. }
  split; [rewrite Hrun, Hw'; reflexivity|].
  split; [rewrite Hw'; reflexivity|].
  split; [rewrite Hw'; apply stored_save|].
  split; [rewrite Hw'; apply history_save|].
  split.
  { intros A B Hne. cbn [fold_left]. unfold addEntry at 2.
    cbn [withoutLocation prepend emptyHistory workspaces files filter recentUri].
    unfold addEntry.
    cbn [withoutLocation prepend emptyHistory workspaces files filter recentUri].
    rewrite (streq_neq _ _ (fun H => Hne (eq_sym H))). reflexivity. }
  split.
  { intros A B Hne. cbn [fold_left]. unfold addEntry at 2.
    cbn [withoutLocation prepend emptyHistory workspaces files filter recentUri].
    unfold addEntry.
    cbn [withoutLocation prepend emptyHistory workspaces files filter recentUri].
    rewrite (streq_neq _ _ (fun H => Hne (eq_sym H))). reflexivity. }
  split.
  { intros A B. cbn [fold_left]. unfold addEntry at 2.
    destruct A; reflexivity. }
  reflexivity.
Qed.

(** ** [openWindow] *)

Lemma record_nil (w : World) : record [] w = w.
Proof. destruct w. unfold record. cbn. now rewrite app_nil_r. Qed.

Lemma record_record (a b : list Event) (w : World) :
  record b (record a w) = record (a ++ b) w.
Proof. unfold record. cbn. now rewrite app_assoc. Qed.

Lemma emit_eq (e : Event) (w : World) : emit e w = (Returned tt, record [e] w).
Proof. reflexivity. Qed.

Section OpenWindowProperties.

Variable path : URI -> jsstring.
Variable pathsToEditors : list IURIToOpen -> Outcome (list IResourceEditor).

Lemma navigate_eq (d : bool) (address : jsstring) (w : World) :
  navigate d address w =
  (Returned tt, record [if d then WindowOpen address else LocationHref address] w).
Proof. destruct d; reflexivity. Qed.

Lemma openEach_eq (d : bool) (uris : list IURIToOpen) (w : World) :
  openEach path pathsToEditors d uris w =
  (outcome pathsToEditors uris,
   record (dispatched path pathsToEditors d (origin w) uris) w).
Proof.
  revert w. induction uris as [|uri rest IH]; intros w.
  - cbn. now rewrite record_nil.
  - cbn [openEach outcome dispatched]. unfold bind at 1. unfold openOne.
    unfold bind at 1. unfold bind at 1. unfold navigation.
    destruct (open_folderUri uri) as [folderUri|],
             (open_workspaceUri uri) as [workspaceUri|];
      rewrite ?navigate_eq; unfold ret at 1; cbn [origin record];
      rewrite ?navigate_eq; try unfold ret at 1;
      (destruct (open_fileUri uri) as [fileUri|];
       [ destruct (pathsToEditors [uri]) as [inputs|e];
         [ rewrite emit_eq, IH; cbn [origin record]; rewrite ?record_record;
           cbn [app]; rewrite ?record_record; reflexivity
         | unfold throw; rewrite ?record_record, ?app_nil_r; cbn [app];
           rewrite ?record_nil; reflexivity ]
       | unfold ret; rewrite IH; cbn [origin record]; rewrite ?record_record;
         cbn [app]; reflexivity ]).
Qed.

Lemma openWindow_eq (uris : list IURIToOpen) (_options : option IOpenSettings)
    (w : World) :
  openWindow path pathsToEditors uris _options w =
  (outcome pathsToEditors uris,
   record (dispatched path pathsToEditors
                      (shouldOpenNewWindow (windowConfig w) _options)
                      (origin w) uris) w).
Proof. unfold openWindow. apply openEach_eq. Qed.

Lemma navigation_agrees (d : bool) (origin : jsstring) (uri : IURIToOpen) :
  Forall (agrees d) (navigation path d origin uri).
Proof.
  unfold navigation.
  destruct (open_folderUri uri), (open_workspaceUri uri), d;
    repeat constructor.
Qed.

Lemma dispatched_agrees (d : bool) (origin : jsstring) (uris : list IURIToOpen) :
  Forall (agrees d) (dispatched path pathsToEditors d origin uris).
Proof.
  induction uris as [|uri rest IH]; cbn [dispatched]; [constructor|].
  apply Forall_app. split; [apply navigation_agrees|].
  destruct (open_fileUri uri); [|exact IH].
  destruct (pathsToEditors [uri]); constructor; [exact I | exact IH].
Qed.

Lemma navigation_no_editor (d : bool) (origin : jsstring) (uri : IURIToOpen) :
  filter isOpenEditors (navigation path d origin uri) = [].
Proof.
  unfold navigation.
  destruct (open_folderUri uri), (open_workspaceUri uri), d; reflexivity.
Qed.

Lemma navigation_no_store (d : bool) (origin : jsstring) (uri : IURIToOpen) :
  filter isStore (navigation path d origin uri) = [].
Proof.
  unfold navigation.
  destruct (open_folderUri uri), (open_workspaceUri uri), d; reflexivity.
Qed.

(** The editors a request opens are the same under either decision. *)
Lemma dispatched_editors (d d' : bool) (origin : jsstring) (uris : list IURIToOpen) :
  filter isOpenEditors (dispatched path pathsToEditors d origin uris) =
  filter isOpenEditors (dispatched path pathsToEditors d' origin uris).
Proof.
  induction uris as [|uri rest IH]; cbn [dispatched]; [reflexivity|].
  rewrite !filter_app, !navigation_no_editor. cbn [app].
  destruct (open_fileUri uri); [|exact IH].
  destruct (pathsToEditors [uri]); [|reflexivity].
  cbn [filter isOpenEditors]. now rewrite IH.
Qed.

Lemma dispatched_no_store (d : bool) (origin : jsstring) (uris : list IURIToOpen) :
  filter isStore (dispatched path pathsToEditors d origin uris) = [].
Proof.
  induction uris as [|uri rest IH]; cbn [dispatched]; [reflexivity|].
  rewrite filter_app, navigation_no_store. cbn [app].
  destruct (open_fileUri uri); [|exact IH].
  destruct (pathsToEditors [uri]); [|reflexivity].
  cbn [filter isStore]. exact IH.
Qed.

(** When no file is rejected, every target of the request has had its
    navigation, and every file target its editors. *)
Lemma dispatched_complete (d : bool) (origin : jsstring) (uris : list IURIToOpen) :
  outcome pathsToEditors uris = Returned tt ->
  forall uri, In uri uris ->
    incl (navigation path d origin uri)
         (dispatched path pathsToEditors d origin uris) /\
    (forall fileUri, open_fileUri uri = Some fileUri ->
       exists inputs,
         pathsToEditors [uri] = Returned inputs /\
         In (OpenEditors inputs) (dispatched path pathsToEditors d origin uris)).
Proof.
  induction uris as [|a rest IH]; intros Hout uri Hin; [contradiction|].
  cbn [outcome dispatched] in *.
  assert (Hrest : outcome pathsToEditors rest = Returned tt).
  { destruct (open_fileUri a); [|exact Hout].
    destruct (pathsToEditors [a]); [exact Hout | discriminate]. }
  destruct Hin as [<- | Hin].
  - split; [intros e He; apply in_or_app; now left|].
    intros fileUri Hf. rewrite Hf in *.
    destruct (pathsToEditors [a]) as [inputs|e]; [|discriminate].
    exists inputs. split; [reflexivity|]. apply in_or_app. right. now left.
  - destruct (IH Hrest uri Hin) as [Hnav Hed].
    assert (Hincl : incl (dispatched path pathsToEditors d origin rest)
                         (navigation path d origin a ++
                          match open_fileUri a with
                          | Some _ =>
                              match pathsToEditors [a] with
                              | Returned inputs =>
                                  OpenEditors inputs ::
                                  dispatched path pathsToEditors d origin rest
                              | Thrown _ => []
                              end
                          | None => dispatched path pathsToEditors d origin rest
                          end)).
    { intros e He. apply in_or_app. right.
      destruct (open_fileUri a); [|exact He].
      destruct (pathsToEditors [a]); [now right | discriminate]. }
    split; [intros e He; apply Hincl, Hnav, He|].
    intros fileUri Hf. destruct (Hed fileUri Hf) as [inputs [Hi Hin']].
    exists inputs. split; [exact Hi | apply Hincl, Hin'].
Qed.

End OpenWindowProperties.

Lemma history_storage (w w' : World) :
  storage w = storage w' -> history w = history w'.
Proof.
  intros E. unfold history. rewrite !getRecentlyOpened_eq. unfold stored.
  rewrite E.
  destruct (storage_get (storage w') RECENTLY_OPENED_KEY StorageScope.GLOBAL)
    as [[|c raw]|];
    try reflexivity.
  destruct (parse (c :: raw)) as [data|]; [|reflexivity].
  destruct (decode data); reflexivity.
Qed.

(** C7. [openWindow] takes the decision of [shouldOpenNewWindow] once, from
    the options and the configuration of the world it starts in, and does
    to the window and the editor service what [dispatched] lists under
    that one decision: every navigation of the request agrees with it;
    when no file is rejected, every target has had its navigation under
    the decision and every file target its editors; the editors opened are
    the same under either decision; and a single folder with
    [forceNewWindow] set opens one new window on that folder and no
    editor. *)
Theorem openWindow_routing (path : URI -> jsstring)
    (pathsToEditors : list IURIToOpen -> Outcome (list IResourceEditor))
    (uris : list IURIToOpen) (_options : option IOpenSettings) (w : World) :
  let d := shouldOpenNewWindow (windowConfig w) _options in
  let events := dispatched path pathsToEditors d (origin w) uris in
  openWindow path pathsToEditors uris _options w =
    (outcome pathsToEditors uris, record events w) /\
  Forall (agrees d) events /\
  (outcome pathsToEditors uris = Returned tt ->
   forall uri, In uri uris ->
     incl (navigation path d (origin w) uri) events /\
     (forall fileUri, open_fileUri uri = Some fileUri ->
        exists inputs,
          pathsToEditors [uri] = Returned inputs /\ In (OpenEditors inputs) events)) /\
  filter isOpenEditors events =
    filter isOpenEditors (dispatched path pathsToEditors (negb d) (origin w) uris) /\
  (forall folderUri,
     openWindow path pathsToEditors [folderToOpen folderUri]
                (Some (mkOpenSettings (Some true) None)) w =
     (Returned tt,
      record [WindowOpen (origin w ++ js "/?folder=" ++ path folderUri)] w)).
Proof.
  intros d events. split; [apply openWindow_eq|].
  split; [apply dispatched_agrees|].
  split; [apply dispatched_complete|].
  split; [apply dispatched_editors|].
  intros folderUri. rewrite openWindow_eq. reflexivity.
Qed.

Lemma openWindow_routing_witness :
  outcome editorsOf [folderToOpen (mkURI (js "file:///proj"));
                     fileToOpen (mkURI (js "file:///proj/a.txt"))] = Returned tt /\
  incl [LocationHref (js "http://localhost:8080/?folder=/proj")]
       (dispatched filePath editorsOf false (js "http://localhost:8080")
                   [folderToOpen (mkURI (js "file:///proj"));
                    fileToOpen (mkURI (js "file:///proj/a.txt"))]).
Proof.
  split; [reflexivity|].
  exact (proj1 (proj1 (proj2 (proj2
           (openWindow_routing filePath editorsOf
              [folderToOpen (mkURI (js "file:///proj"));
               fileToOpen (mkURI (js "file:///proj/a.txt"))] None freshWorld)))
           eq_refl (folderToOpen (mkURI (js "file:///proj")))
           (or_introl eq_refl))).
Defined.

(** C4 as stated fails: opening a folder from a world with no history
    leaves the history empty and the storage as it was; the folder is not
    among the recent workspaces. *)
Lemma openWindow_records_nothing :
  let w' := after_call (openWindow filePath editorsOf
                                   [folderToOpen (mkURI (js "file:///proj"))] None)
                       freshWorld in
  history w' = Some emptyHistory /\
  storage w' = [] /\
  ~ (exists h, history w' = Some h /\
               In (RecentFolder (mkURI (js "file:///proj"))) (workspaces h)).
Proof.
  cbv zeta. split; [reflexivity|]. split; [reflexivity|].
  intros [h [Hh Hin]].
  assert (E : Some h = Some emptyHistory) by (rewrite <- Hh; reflexivity).
  injection E as ->. exact Hin.
Qed.

(** C4, as the code has it: [openWindow] never writes the recent history.
    It leaves the storage as it was, calls [storageService.store] not once,
    and [getRecentlyOpened] returns after it what it returned before.  The
    history is written at the start of the service, which adds the folder
    or the workspace the window shows. *)
Theorem openWindow_leaves_history (path : URI -> jsstring)
    (pathsToEditors : list IURIToOpen -> Outcome (list IResourceEditor))
    (uris : list IURIToOpen) (_options : option IOpenSettings) (w : World) :
  let w' := after_call (openWindow path pathsToEditors uris _options) w in
  storage w' = storage w /\
  filter isStore (trace w') = filter isStore (trace w) /\
  history w' = history w /\
  (forall h,
     history w = Some h ->
     history (after_call addWorkspaceToRecentlyOpened w) =
     Some (match activeWorkspace w with
           | Some r => addEntry h r
           | None => h
           end)).
Proof.
  intros w'. subst w'. unfold after_call at 1 2 3. rewrite openWindow_eq. cbn [snd].
  split; [reflexivity|]. split; [|split].
  - cbn [record trace]. rewrite filter_app, dispatched_no_store. apply app_nil_r.
  - apply history_storage. reflexivity.
  - apply history_startup.
Qed.

Lemma openWindow_leaves_history_witness :
  history (folderWorld (mkURI (js "file:///proj"))) = Some emptyHistory /\
  history (after_call addWorkspaceToRecentlyOpened
                      (folderWorld (mkURI (js "file:///proj")))) =
  Some (mkRecentlyOpened [RecentFolder (mkURI (js "file:///proj"))] []).
Proof.
  split; [reflexivity|].
  exact (proj2 (proj2 (proj2
           (openWindow_leaves_history filePath editorsOf [] None
              (folderWorld (mkURI (js "file:///proj"))))))
           emptyHistory eq_refl).
Defined.

(** ** The codec round trip *)

(** C8. Decoding the encoded form of a history gives the history back:
    [restoreRecentlyOpened (toStoreData h)] returns [h] and logs nothing;
    and so does the way through the storage, [JSON.stringify] and
    [JSON.parse]: after [saveRecentlyOpened h], [getRecentlyOpened] returns
    [h]. *)
Theorem codec_round_trip (h : IRecentlyOpened) (w : World) :
  restoreRecentlyOpened (toStoreData h) w = (Returned h, w) /\
  parse (stringify (toStoreData h)) = Some (toStoreData h) /\
  getRecentlyOpened (after_call (saveRecentlyOpened h) w) =
    (Returned h, after_call (saveRecentlyOpened h) w).
Proof.
  split; [|split].
  - unfold restoreRecentlyOpened. now rewrite decode_toStoreData.
  - apply parse_stored.
  - apply getRecentlyOpened_save.
Qed.

Lemma addRecentlyOpened_in_order_witness :
  getRecentlyOpened freshWorld = (Returned emptyHistory, freshWorld) /\
  history (after_call (addRecentlyOpened [folder "file:///a"; folder "file:///b"])
                      freshWorld) =
  Some (mkRecentlyOpened [RecentFolder (mkURI (js "file:///b"));
                          RecentFolder (mkURI (js "file:///a"))] []).
Proof.
  split; [reflexivity|].
  exact (proj1 (proj2 (proj2 (proj2
           (addRecentlyOpened_in_order [folder "file:///a"; folder "file:///b"]
              freshWorld freshWorld emptyHistory eq_refl))))).
Defined.

(** C6. In every world reached from one with no history by calls of add and
    remove, [getRecentlyOpened] returns a history in which no two files, no
    two folders and no two workspaces have the same location; and adding
    the folder [X] twice leaves one entry of the location of [X], the
    first of the workspaces list. *)
Theorem same_kind_unique (w : World) :
  reachable w ->
  exists h,
    history w = Some h /\
    NoDup (fileLocations h) /\ NoDup (folderLocations h) /\
    NoDup (workspaceLocations h) /\
    forall X : URI,
      exists h2 tail,
        history (after_call (addRecentlyOpened [OfPlace (RecentFolder X)])
                   (after_call (addRecentlyOpened [OfPlace (RecentFolder X)]) w)) =
        Some h2 /\
        workspaces h2 = RecentFolder X :: tail /\
        occurrences (toString X) h2 = 1.
Proof.
  intros R. destruct (reachable_history w R) as [h [Hh Hnd]].
  exists h. split; [assumption|].
  destruct (NoDup_kinds h Hnd) as [Hf [Hfo Hws]].
  repeat (split; [assumption|]).
  intros X. set (r := OfPlace (RecentFolder X)).
  exists (addEntry (addEntry h r) r). eexists.
  split; [|split].
  - apply history_add_one. now apply history_add_one.
  - reflexivity.
  - apply (occurrences_addEntry (addEntry h r) r).
Qed.

Lemma same_kind_unique_witness :
  reachable (after_call (call (Add [folder "file:///a"])) freshWorld) /\
  exists h,
    history (after_call (call (Add [folder "file:///a"])) freshWorld) = Some h /\
    NoDup (fileLocations h) /\ NoDup (folderLocations h) /\
    NoDup (workspaceLocations h).
Proof.
  assert (R : reachable (after_call (call (Add [folder "file:///a"])) freshWorld)).
  { apply reachable_call, reachable_empty. reflexivity. }
  split; [exact R|].
  destruct (same_kind_unique _ R) as [h [Hh [Hf [Hfo [Hws _]]]]].
  exists h. repeat split; assumption.
Defined.

(** C10. Adding an entry removes every entry of its location from both
    lists, whatever their kinds, and puts the new entry at the front of its
    list, so that it is the one entry of its location in the history; and
    in every world reached from one with no history by calls of add and
    remove, no two entries of the history, of whatever kinds, have the same
    location. *)
Theorem unique_across_kinds (w : World) :
  reachable w ->
  exists h,
    history w = Some h /\
    NoDup (locations h) /\
    forall r : IRecent,
      let x := toString (recentUri r) in
      exists h',
        history (after_call (addRecentlyOpened [r]) w) = Some h' /\
        files h' =
          match r with OfFile f => [f] | OfPlace _ => [] end ++
          filter (fun f => negb (streq x (toString (fileUri f)))) (files h) /\
        workspaces h' =
          match r with OfFile _ => [] | OfPlace p => [p] end ++
          filter (fun p => negb (streq x (toString (placeUri p)))) (workspaces h) /\
        occurrences x h' = 1.
Proof.
  intros R. destruct (reachable_history w R) as [h [Hh Hnd]].
  exists h. split; [assumption|]. split; [assumption|].
  intros r x. exists (addEntry h r).
  split; [now apply history_add_one|].
  split; [destruct r; reflexivity|].
  split; [destruct r; reflexivity|].
  apply occurrences_addEntry.
Qed.

Lemma unique_across_kinds_witness :
  reachable (after_call (call (Add [OfFile (RecentFile (mkURI (js "file:///a")))]))
               (after_call (call (Add [folder "file:///a"])) freshWorld)) /\
  exists h,
    history (after_call (call (Add [OfFile (RecentFile (mkURI (js "file:///a")))]))
               (after_call (call (Add [folder "file:///a"])) freshWorld)) = Some h /\
    NoDup (locations h).
Proof.
  assert (R : reachable
                (after_call (call (Add [OfFile (RecentFile (mkURI (js "file:///a")))]))
                   (after_call (call (Add [folder "file:///a"])) freshWorld))).
  { apply reachable_call, reachable_call, reachable_empty. reflexivity. }
  split; [exact R|].
  destruct (unique_across_kinds _ R) as [h [Hh [Hnd _]]].
  exists h. split; assumption.
Defined.

Lemma matchesb_somePath (paths : list URI) (u : URI) :
  matchesb paths u = somePath paths u.
Proof.
  unfold matchesb, somePath. induction paths as [|p paths IH]; [reflexivity|].
  cbn [map existsb]. rewrite IH. f_equal.
  destruct (streq (toString p) (toString u)) eqn:E.
  - apply streq_spec in E. rewrite E. apply streq_refl.
  - apply streq_neq. intros H. rewrite H, streq_refl in E. discriminate.
Qed.

Lemma doRemove_withoutLocations (h : IRecentlyOpened) (paths : list URI) :
  doRemoveFromRecentlyOpened h paths = withoutLocations paths h.
Proof.
  unfold doRemoveFromRecentlyOpened, withoutLocations.
  f_equal; apply filter_ext; intros a; now rewrite matchesb_somePath.
Qed.

Lemma matchesb_false (paths : list URI) (u : URI) :
  matchesb paths u = false <-> ~ matches paths u.
Proof. rewrite matchesb_somePath. apply somePath_not_matches. Qed.

Lemma filter_unmatched {A : Type} (paths : list URI) (uri : A -> URI) (l : list A) :
  (forall a, In a l -> ~ matches paths (uri a)) ->
  filter (fun a => negb (matchesb paths (uri a))) l = l.
Proof.
  intros H. apply forallb_filter_id. apply forallb_forall. intros a Ha.
  apply negb_true_iff, matchesb_false, H, Ha.
Qed.

Lemma in_filter_unmatched {A : Type} (paths : list URI) (uri : A -> URI)
    (l : list A) (a : A) :
  In a (filter (fun a => negb (matchesb paths (uri a))) l) <->
  In a l /\ ~ matches paths (uri a).
Proof. now rewrite filter_In, negb_true_iff, matchesb_false. Qed.

(** C9. [removeFromRecentlyOpened] leaves, of the history
    [getRecentlyOpened] returned, the entries whose location is none of the
    given ones, in their order: an entry is in a list after the call when
    it was in it before and matches no path; a list none of whose entries
    matches is left as it was, and so is the whole history when no entry
    matches; the result is then stored, with one call of
    [storageService.store]. *)
Theorem removeFromRecentlyOpened_frame (paths : list URI) (w w1 : World)
    (h : IRecentlyOpened) :
  getRecentlyOpened w = (Returned h, w1) ->
  let h' := withoutLocations paths h in
  let blob := stringify (toStoreData h') in
  let w' := after_call (removeFromRecentlyOpened paths) w in
  removeFromRecentlyOpened paths w = (Returned tt, w') /\
  history w' = Some h' /\
  (forall f, In f (files h') <-> In f (files h) /\ ~ matches paths (fileUri f)) /\
  (forall p, In p (workspaces h') <->
             In p (workspaces h) /\ ~ matches paths (placeUri p)) /\
  ((forall f, In f (files h) -> ~ matches paths (fileUri f)) ->
   files h' = files h) /\
  ((forall p, In p (workspaces h) -> ~ matches paths (placeUri p)) ->
   workspaces h' = workspaces h) /\
  ((forall f, In f (files h) -> ~ matches paths (fileUri f)) ->
   (forall p, In p (workspaces h) -> ~ matches paths (placeUri p)) ->
   h' = h) /\
  stored w' = Some blob /\
  trace w' = trace w1 ++ [StorageStore RECENTLY_OPENED_KEY blob StorageScope.GLOBAL].
Proof.
  intros E h' blob w'.
  assert (Hrun : removeFromRecentlyOpened paths w = saveRecentlyOpened h' w1).
  { rewrite (removeFromRecentlyOpened_eq paths w w1 h E), doRemove_withoutLocations.
    reflexivity. }
  assert (Hw' : w' = after_call (saveRecentlyOpened h') w1).
  { unfold w', after_call. now rewrite Hrun. }
  split; [rewrite Hrun, Hw'; reflexivity|].
  split; [rewrite Hw'; apply history_save|].
  split; [intros f; apply in_filter_unmatched|].
  split; [intros p; apply in_filter_unmatched|].
  split; [apply filter_unmatched|].
  split; [apply filter_unmatched|].
  split.
  { intros Hf Hp. destruct h as [ws fs]. unfold h', withoutLocations.
    cbn [files workspaces] in *.
    now rewrite (filter_unmatched paths _ fs Hf), (filter_unmatched paths _ ws Hp). }
  split; [rewrite Hw'; apply stored_save|].
  rewrite Hw'. reflexivity.
Qed.

Lemma removeFromRecentlyOpened_frame_witness :
  getRecentlyOpened (after_call (addRecentlyOpened [folder "file:///a"]) freshWorld) =
    (Returned (mkRecentlyOpened [RecentFolder (mkURI (js "file:///a"))] []),
     after_call (addRecentlyOpened [folder "file:///a"]) freshWorld) /\
  history (after_call (removeFromRecentlyOpened [mkURI (js "file:///b")])
             (after_call (addRecentlyOpened [folder "file:///a"]) freshWorld)) =
    Some (mkRecentlyOpened [RecentFolder (mkURI (js "file:///a"))] []) /\
  history (after_call (removeFromRecentlyOpened [mkURI (js "file:///a")])
             (after_call (addRecentlyOpened [folder "file:///a"]) freshWorld)) =
    Some emptyHistory.
Proof.
  split; [reflexivity|]. split.
  - exact (proj1 (proj2
             (removeFromRecentlyOpened_frame [mkURI (js "file:///b")]
                (after_call (addRecentlyOpened [folder "file:///a"]) freshWorld)
                (after_call (addRecentlyOpened [folder "file:///a"]) freshWorld)
                (mkRecentlyOpened [RecentFolder (mkURI (js "file:///a"))] [])
                eq_refl))).
  - exact (proj1 (proj2
             (removeFromRecentlyOpened_frame [mkURI (js "file:///a")]
                (after_call (addRecentlyOpened [folder "file:///a"]) freshWorld)
                (after_call (addRecentlyOpened [folder "file:///a"]) freshWorld)
                (mkRecentlyOpened [RecentFolder (mkURI (js "file:///a"))] [])
                eq_refl))).
Defined.

(** * The rest of the window services: properties *)

(** ** [encodeURIComponent] *)

Open Scope N_scope.

Lemma upper_hex_unreserved (d : N) : d < 16 -> is_unreserved (upper_hex d) = true.
Proof.
  intros H.
  assert (E : exists n, (n < 16)%nat /\ d = N.of_nat n).
  { exists (N.to_nat d). split; [lia | now rewrite N2Nat.id]. }
  destruct E as [n [Hn ->]].
  do 16 (destruct n as [|n]; [reflexivity|]). lia.
Qed.

Lemma percent_chars (byte : N) : byte < 256 -> Forall componentChar (percent byte).
Proof.
  intros H. unfold percent.
  apply Forall_cons; [now right|].
  apply Forall_cons.
  { left. apply upper_hex_unreserved. apply N.Div0.div_lt_upper_bound. lia. }
  apply Forall_cons; [|constructor].
  left. apply upper_hex_unreserved. apply N.mod_lt. lia.
Qed.

Lemma utf8_bytes (v : N) : Forall (fun b => b < 256) (utf8 v).
Proof.
  unfold utf8.
  destruct (N.ltb_spec v 128); [repeat constructor; lia|].
  destruct (N.ltb_spec v 2048).
  { repeat constructor.
    - assert (v / 64 < 32) by (apply N.Div0.div_lt_upper_bound; lia). lia.
    - assert (v mod 64 < 64) by (apply N.mod_lt; lia). lia. }
  destruct (N.ltb_spec v 65536).
  { repeat constructor.
    - assert (v / 4096 < 16) by (apply N.Div0.div_lt_upper_bound; lia). lia.
    - assert ((v / 64) mod 64 < 64) by (apply N.mod_lt; lia). lia.
    - assert (v mod 64 < 64) by (apply N.mod_lt; lia). lia. }
  repeat constructor.
  - assert ((v / 262144) mod 8 < 8) by (apply N.mod_lt; lia). lia.
  - assert ((v / 4096) mod 64 < 64) by (apply N.mod_lt; lia). lia.
  - assert ((v / 64) mod 64 < 64) by (apply N.mod_lt; lia). lia.
  - assert (v mod 64 < 64) by (apply N.mod_lt; lia). lia.
Qed.

Lemma escape_chars (v : N) : Forall componentChar (escape v).
Proof.
  unfold escape. pose proof (utf8_bytes v) as H.
  induction H as [|b l Hb _ IH]; cbn [flat_map]; [constructor|].
  apply Forall_app. split; [now apply percent_chars | exact IH].
Qed.

Lemma prefix_with_chars (e : jsstring) (r : option jsstring) (t : jsstring) :
  Forall componentChar e ->
  (forall t', r = Some t' -> Forall componentChar t') ->
  prefix_with e r = Some t -> Forall componentChar t.
Proof.
  intros He Hr. destruct r as [t'|]; cbn; [|discriminate].
  intros E. injection E as <-. apply Forall_app. split; [exact He | now apply Hr].
Qed.

(** What [encodeURIComponent] returns is made of the characters a component
    keeps and of [%]. *)
Lemma encodeURIComponent_chars (s t : jsstring) :
  encodeURIComponent s = Some t -> Forall componentChar t.
Proof.
  remember (List.length s) as n eqn:Hn.
  assert (Hle : (List.length s <= n)%nat) by lia. clear Hn.
  revert s t Hle. induction n as [|n IH]; intros [|c s] t Hle; cbn [List.length] in Hle;
    try lia; cbn [encodeURIComponent].
  - intros E. injection E as <-. constructor.
  - intros E. injection E as <-. constructor.
  - assert (IH' : forall r, (List.length r <= n)%nat ->
                  forall t', encodeURIComponent r = Some t' -> Forall componentChar t').
    { intros r Hr t'. now apply IH. }
    destruct (is_unreserved c) eqn:Hu.
    { apply prefix_with_chars; [|apply IH'; lia].
      apply Forall_cons; [now left | constructor]. }
    destruct (is_trail c); [discriminate|].
    destruct (is_lead c).
    + destruct s as [|k s]; [discriminate|].
      destruct (is_trail k); [|discriminate].
      apply prefix_with_chars; [apply escape_chars | apply IH'; cbn in Hle; lia].
    + apply prefix_with_chars; [apply escape_chars | apply IH'; lia].
Qed.

Lemma componentChar_plain (c : char16) :
  componentChar c -> c <> 38 /\ c <> 63 /\ c <> 61 /\ c <> 35 /\ c <> 47 /\ c <> 32.
Proof.
  intros [H | ->]; [|repeat split; discriminate].
  repeat split; intros ->; discriminate.
Qed.

Close Scope N_scope.

(** ** The address of the extension development host *)

Lemma lastChar_app (a b : jsstring) :
  b <> [] -> lastChar (a ++ b) = lastChar b.
Proof.
  intros Hb. induction a as [|c a IH]; [reflexivity|].
  cbn [app lastChar]. destruct (a ++ b) eqn:E; [|exact IH].
  destruct a; [contradiction | discriminate].
Qed.

Lemma lastChar_snoc (a : jsstring) (c : N) : lastChar (a ++ [c]) = Some c.
Proof. now rewrite lastChar_app. Qed.

Lemma lastChar_parameter (key encoded : jsstring) :
  Forall componentChar encoded ->
  exists c, lastChar (key ++ 61%N :: encoded) = Some c /\ c <> 63%N /\ c <> 38%N.
Proof.
  intros H. rewrite lastChar_app by discriminate.
  destruct encoded as [|e encoded] using rev_ind.
  - exists 61%N. repeat split; discriminate.
  - exists e. rewrite app_comm_cons, lastChar_snoc. split; [reflexivity|].
    apply Forall_app in H. destruct H as [_ H]. inversion H as [|? ? He _]; subst.
    apply componentChar_plain in He. tauto.
Qed.

(** [addQueryParameter] on an address that ends with the [?], and on one
    that ends with a parameter. *)
Lemma addQueryParameter_first (base key : jsstring) (value : option jsstring) :
  addQueryParameter (base ++ js "?") key value =
  match renderParameter (key, stringOf value) with
  | Some r => Returned (base ++ js "?" ++ r)
  | None => Thrown URIError
  end.
Proof.
  unfold addQueryParameter, renderParameter. cbn [fst snd].
  change (js "?") with [63%N]. rewrite lastChar_snoc. cbn [N.eqb Pos.eqb negb andb].
  destruct (encodeURIComponent (stringOf value)); [|reflexivity].
  now rewrite <- app_assoc.
Qed.

Lemma addQueryParameter_next (base r key : jsstring) (value : option jsstring)
    (k e : jsstring) :
  r = k ++ 61%N :: e -> Forall componentChar e ->
  addQueryParameter (base ++ r) key value =
  match renderParameter (key, stringOf value) with
  | Some r' => Returned (base ++ r ++ 38%N :: r')
  | None => Thrown URIError
  end.
Proof.
  intros -> He. unfold addQueryParameter, renderParameter. cbn [fst snd].
  destruct (lastChar_parameter k e He) as [c [Hc [H63 H38]]].
  rewrite lastChar_app by (destruct k; discriminate). rewrite Hc.
  apply N.eqb_neq in H63, H38. rewrite H63, H38. cbn [negb andb].
  destruct (encodeURIComponent (stringOf value)); [|reflexivity].
  now rewrite <- !app_assoc.
Qed.

Lemma renderParameter_shape (p : jsstring * jsstring) (r : jsstring) :
  renderParameter p = Some r ->
  exists e, r = fst p ++ 61%N :: e /\ Forall componentChar e.
Proof.
  unfold renderParameter. destruct (encodeURIComponent (snd p)) as [e|] eqn:E;
    [|discriminate].
  intros H. injection H as <-. exists e. split; [reflexivity|].
  now apply encodeURIComponent_chars with (s := snd p).
Qed.

Lemma endsParameter_render (a : jsstring) (p : jsstring * jsstring) (r : jsstring) :
  renderParameter p = Some r -> endsParameter (a ++ r).
Proof.
  intros H. destruct (renderParameter_shape p r H) as [e [-> He]].
  destruct (lastChar_parameter (fst p) e He) as [c Hc].
  exists c. rewrite lastChar_app by (destruct (fst p); discriminate). exact Hc.
Qed.

Lemma endsParameter_render_sep (a : jsstring) (p : jsstring * jsstring) (r : jsstring) :
  renderParameter p = Some r -> endsParameter (a ++ 38%N :: r).
Proof.
  intros H. change (a ++ 38%N :: r) with (a ++ [38%N] ++ r). rewrite app_assoc.
  now apply endsParameter_render with (p := p).
Qed.

Lemma addQueryParameter_after (address key : jsstring) (value : option jsstring) :
  endsParameter address ->
  addQueryParameter address key value =
  match renderParameter (key, stringOf value) with
  | Some r => Returned (address ++ 38%N :: r)
  | None => Thrown URIError
  end.
Proof.
  intros [c [Hc [H63 H38]]]. unfold addQueryParameter, renderParameter. cbn [fst snd].
  rewrite Hc. apply N.eqb_neq in H63, H38. rewrite H63, H38. cbn [negb andb].
  destruct (encodeURIComponent (stringOf value)); [|reflexivity].
  now rewrite <- app_assoc.
Qed.

(** One of the optional parameters, added to an address that has the
    parameters [rs] already. *)
Lemma optional_parameter (origin : jsstring) (rs : list jsstring)
    (cond : bool) (key : jsstring) (value : option jsstring) :
  endsParameter (origin ++ js "/?" ++ joinWith 38%N rs) -> rs <> [] ->
  (if cond then addQueryParameter (origin ++ js "/?" ++ joinWith 38%N rs) key value
   else Returned (origin ++ js "/?" ++ joinWith 38%N rs)) =
  match (if cond then renderParameters [(key, stringOf value)] else Some []) with
  | Some r => Returned (origin ++ js "/?" ++ joinWith 38%N (rs ++ r))
  | None => Thrown URIError
  end.
Proof.
  intros Hends Hrs. destruct cond.
  - rewrite addQueryParameter_after by assumption. cbn [renderParameters].
    destruct (renderParameter (key, stringOf value)) as [r|]; [|reflexivity].
    f_equal. rewrite <- !app_assoc. do 2 f_equal.
    clear Hends. induction rs as [|x rs IH]; [contradiction|].
    destruct rs as [|y rs]; [reflexivity|].
    cbn [app joinWith] in *. rewrite <- app_assoc. cbn [app]. f_equal. f_equal.
    apply IH. discriminate.
  - now rewrite app_nil_r.
Qed.

Lemma renderParameters_app (a b : list (jsstring * jsstring)) :
  renderParameters (a ++ b) =
  match renderParameters a, renderParameters b with
  | Some ra, Some rb => Some (ra ++ rb)
  | _, _ => None
  end.
Proof.
  induction a as [|p a IH]; cbn [app renderParameters].
  - destruct (renderParameters b); reflexivity.
  - rewrite IH. destruct (renderParameter p), (renderParameters a), (renderParameters b);
      reflexivity.
Qed.

Lemma joinWith_last (sep : N) (rs : list jsstring) :
  rs <> [] -> exists x rl, In rl rs /\ joinWith sep rs = x ++ rl.
Proof.
  induction rs as [|r rs IH]; [contradiction|]. intros _.
  destruct rs as [|y rs].
  - exists [], r. split; [now left | reflexivity].
  - destruct IH as [x [rl [Hin E]]]; [discriminate|].
    exists (r ++ sep :: x), rl. split; [now right|].
    change (joinWith sep (r :: y :: rs)) with (r ++ sep :: joinWith sep (y :: rs)).
    rewrite E, <- app_assoc. reflexivity.
Qed.

Lemma renderParameters_In (ps : list (jsstring * jsstring)) (rs : list jsstring)
    (r : jsstring) :
  renderParameters ps = Some rs -> In r rs ->
  exists p, In p ps /\ renderParameter p = Some r.
Proof.
  revert rs. induction ps as [|p ps IH]; intros rs; cbn [renderParameters].
  - intros E. injection E as <-. contradiction.
  - destruct (renderParameter p) as [r'|] eqn:Hr; [|discriminate].
    destruct (renderParameters ps) as [rs'|]; [|discriminate].
    intros E. injection E as <-. intros [<- | Hin].
    + exists p. split; [now left | exact Hr].
    + destruct (IH rs' eq_refl Hin) as [q [Hq Hq']]. exists q. split; [now right | exact Hq'].
Qed.

Lemma endsParameter_joined (origin : jsstring) (rs : list jsstring)
    (ps : list (jsstring * jsstring)) :
  renderParameters ps = Some rs -> rs <> [] ->
  endsParameter (origin ++ js "/?" ++ joinWith 38%N rs).
Proof.
  intros Hps Hrs. destruct (joinWith_last 38%N rs Hrs) as [x [rl [Hin E]]].
  destruct (renderParameters_In ps rs rl Hps Hin) as [p [_ Hp]].
  rewrite E, !app_assoc. now apply endsParameter_render with (p := p).
Qed.

Lemma optional_step (origin : jsstring) (ps : list (jsstring * jsstring))
    (rs : list jsstring) (cond : bool) (key : jsstring) (value : option jsstring) :
  renderParameters ps = Some rs -> rs <> [] ->
  (if cond then addQueryParameter (origin ++ js "/?" ++ joinWith 38%N rs) key value
   else Returned (origin ++ js "/?" ++ joinWith 38%N rs)) =
  addressOf origin (ps ++ if cond then [(key, stringOf value)] else []).
Proof.
  intros Hps Hrs.
  rewrite (optional_parameter origin rs cond key value
             (endsParameter_joined origin rs ps Hps Hrs) Hrs).
  unfold addressOf. rewrite renderParameters_app, Hps.
  destruct cond; [|reflexivity].
  destruct (renderParameters [(key, stringOf value)]); reflexivity.
Qed.

Lemma renderParameters_nonempty (ps : list (jsstring * jsstring)) (rs : list jsstring) :
  renderParameters ps = Some rs -> ps <> [] -> rs <> [].
Proof.
  destruct ps as [|p ps]; [contradiction|]. cbn [renderParameters].
  destruct (renderParameter p), (renderParameters ps); try discriminate.
  intros E _. injection E as <-. discriminate.
Qed.

(** After the parameters [ps], an optional one. *)
Lemma addressOf_then (origin : jsstring) (ps : list (jsstring * jsstring))
    (cond : bool) (key : jsstring) (value : option jsstring) :
  ps <> [] ->
  andThen (addressOf origin ps)
          (fun a => if cond then addQueryParameter a key value else Returned a) =
  addressOf origin (ps ++ if cond then [(key, stringOf value)] else []).
Proof.
  intros Hps. unfold addressOf at 1.
  destruct (renderParameters ps) as [rs|] eqn:E; cbn [andThen].
  - apply optional_step; [exact E | now apply renderParameters_nonempty with (ps := ps)].
  - unfold addressOf. rewrite renderParameters_app, E. reflexivity.
Qed.

Lemma andThen_assoc {A B C : Type} (o : Outcome A) (f : A -> Outcome B)
    (g : B -> Outcome C) :
  andThen (andThen o f) g = andThen o (fun a => andThen (f a) g).
Proof. destruct o; reflexivity. Qed.

Lemma addressOf_first (origin key : jsstring) (value : option jsstring) :
  addQueryParameter (origin ++ js "/?") key value =
  addressOf origin [(key, stringOf value)].
Proof.
  change (js "/?") with (js "/" ++ js "?"). rewrite app_assoc.
  rewrite addQueryParameter_first. unfold addressOf. cbn [renderParameters].
  destruct (renderParameter (key, stringOf value)); [|reflexivity].
  cbn [joinWith]. now rewrite <- !app_assoc.
Qed.

(** The address [openExtensionDevelopmentHostWindow] builds is the origin,
    [/?] and the parameters with [&] between two of them. *)
Lemma extensionHostAddress_eq (parsedPath : option jsstring -> Outcome jsstring)
    (origin : jsstring) (args : ParsedArgs) :
  extensionHostAddress parsedPath origin args =
  andThen (hostParameters parsedPath args) (addressOf origin).
Proof.
  unfold extensionHostAddress, hostParameters.
  set (o1 := if truthy_arg (extensionDevelopmentPath args)
             then [(js "edp", stringOf (index0 (extensionDevelopmentPath args)))]
             else []).
  set (o2 := if truthy (debugId args) then [(js "di", stringOf (debugId args))] else []).
  set (o3 := if truthy (inspect_brk_extensions args)
             then [(js "ibe", stringOf (inspect_brk_extensions args))] else []).
  assert (Hrest : forall first,
    andThen (addressOf origin [first]) (fun newAddress =>
      andThen (if truthy_arg (extensionDevelopmentPath args)
               then addQueryParameter newAddress (js "edp")
                                      (index0 (extensionDevelopmentPath args))
               else Returned newAddress) (fun newAddress =>
      andThen (if truthy (debugId args)
               then addQueryParameter newAddress (js "di") (debugId args)
               else Returned newAddress) (fun newAddress =>
      if truthy (inspect_brk_extensions args)
      then addQueryParameter newAddress (js "ibe") (inspect_brk_extensions args)
      else Returned newAddress))) =
    addressOf origin (first :: o1 ++ o2 ++ o3)).
  { intros first.
    rewrite <- andThen_assoc, addressOf_then by discriminate. fold o1.
    rewrite <- andThen_assoc, addressOf_then by discriminate. fold o2.
    rewrite addressOf_then by discriminate. fold o3.
    now rewrite <- !app_assoc. }
  destruct (truthy_arg (folder_uri args)).
  - destruct (parsedPath (index0 (folder_uri args))) as [path|e]; cbn [andThen];
      [|reflexivity].
    rewrite addressOf_first. cbn [stringOf].
    rewrite <- (Hrest (js "folder", path)).
    destruct (addressOf origin [(js "folder", path)]); reflexivity.
  - cbn [andThen negb]. rewrite addressOf_first. cbn [stringOf].
    apply (Hrest (js "ew", js "true")).
Qed.

(** ** How calls of add and remove compose *)

Lemma streq_sym (a b : jsstring) : streq a b = streq b a.
Proof.
  destruct (streq a b) eqn:E.
  - apply streq_spec in E. subst. symmetry. apply streq_refl.
  - symmetry. apply streq_neq. intros H. subst. now rewrite streq_refl in E.
Qed.

Lemma withoutLocation_single (u : URI) (h : IRecentlyOpened) :
  withoutLocation (toString u) h = withoutLocations [u] h.
Proof.
  unfold withoutLocation, withoutLocations, matchesb. cbn [map existsb].
  f_equal; apply filter_ext; intros a; now rewrite orb_false_r, streq_sym.
Qed.

Lemma matchesb_app (p1 p2 : list URI) (u : URI) :
  matchesb (p1 ++ p2) u = matchesb p1 u || matchesb p2 u.
Proof. unfold matchesb. now rewrite map_app, existsb_app. Qed.

Lemma filter_filter {A : Type} (f g : A -> bool) (l : list A) :
  filter f (filter g l) = filter (fun a => g a && f a) l.
Proof.
  induction l as [|a l IH]; [reflexivity|]. cbn [filter].
  destruct (g a); cbn [filter andb]; [destruct (f a)|]; now rewrite IH.
Qed.

Lemma withoutLocations_twice (p1 p2 : list URI) (h : IRecentlyOpened) :
  withoutLocations p2 (withoutLocations p1 h) = withoutLocations (p1 ++ p2) h.
Proof.
  unfold withoutLocations. cbn [workspaces files]. rewrite !filter_filter.
  f_equal; apply filter_ext; intros a; now rewrite matchesb_app, negb_orb.
Qed.

Lemma withoutLocations_happ (paths : list URI) (a b : IRecentlyOpened) :
  withoutLocations paths (happ a b) =
  happ (withoutLocations paths a) (withoutLocations paths b).
Proof.
  unfold withoutLocations, happ. cbn [workspaces files]. now rewrite !filter_app.
Qed.

Lemma withoutLocations_nil (h : IRecentlyOpened) : withoutLocations [] h = h.
Proof.
  destruct h as [ws fs]. unfold withoutLocations. cbn [workspaces files matchesb map existsb negb].
  now rewrite !filter_true.
Qed.

Lemma happ_assoc (a b c : IRecentlyOpened) : happ (happ a b) c = happ a (happ b c).
Proof. unfold happ. cbn [workspaces files]. now rewrite <- !app_assoc. Qed.

Lemma happ_empty_l (h : IRecentlyOpened) : happ emptyHistory h = h.
Proof. now destruct h. Qed.

Lemma happ_empty_r (h : IRecentlyOpened) : happ h emptyHistory = h.
Proof. destruct h. unfold happ. cbn. now rewrite !app_nil_r. Qed.

Lemma addEntry_happ (h : IRecentlyOpened) (r : IRecent) :
  addEntry h r = happ (prepend r emptyHistory) (withoutLocations [recentUri r] h).
Proof.
  unfold addEntry. rewrite withoutLocation_single.
  destruct r; reflexivity.
Qed.

(** Adding the entries [l] puts a block that depends on [l] alone in front
    of the entries that have none of the locations of [l]. *)
Lemma fold_addEntry_happ (l : list IRecent) (h : IRecentlyOpened) :
  fold_left addEntry l h =
  happ (frontOf l) (withoutLocations (map recentUri l) h).
Proof.
  unfold frontOf. revert h. induction l as [|r l IH]; intros h.
  - cbn [fold_left map]. now rewrite withoutLocations_nil, happ_empty_l.
  - cbn [fold_left map]. rewrite (IH (addEntry h r)), (IH (addEntry emptyHistory r)).
    rewrite (addEntry_happ h r), (addEntry_happ emptyHistory r).
    rewrite !withoutLocations_happ, !withoutLocations_twice, happ_assoc.
    f_equal. change (withoutLocations ([recentUri r] ++ map recentUri l) emptyHistory)
      with emptyHistory.
    rewrite happ_empty_r. reflexivity.
Qed.

Lemma covered_withoutLocations (paths : list URI) (h : IRecentlyOpened) :
  covered paths h -> withoutLocations paths h = emptyHistory.
Proof.
  intros [Hw Hf]. unfold withoutLocations, emptyHistory. f_equal.
  - destruct (filter _ (workspaces h)) as [|p l] eqn:E; [reflexivity|].
    assert (Hin : In p (filter (fun p => negb (matchesb paths (placeUri p)))
                               (workspaces h))) by (rewrite E; now left).
    apply in_filter_unmatched in Hin. destruct Hin as [Hin Hn].
    exfalso. apply Hn. now apply Hw.
  - destruct (filter _ (files h)) as [|f l] eqn:E; [reflexivity|].
    assert (Hin : In f (filter (fun f => negb (matchesb paths (fileUri f)))
                               (files h))) by (rewrite E; now left).
    apply in_filter_unmatched in Hin. destruct Hin as [Hin Hn].
    exfalso. apply Hn. now apply Hf.
Qed.

Lemma untouched_withoutLocations (paths : list URI) (h : IRecentlyOpened) :
  untouched paths h -> withoutLocations paths h = h.
Proof.
  intros [Hw Hf]. destruct h as [ws fs]. unfold withoutLocations.
  cbn [workspaces files] in *.
  now rewrite (filter_unmatched paths _ ws Hw), (filter_unmatched paths _ fs Hf).
Qed.

Lemma covered_addEntry (paths : list URI) (h : IRecentlyOpened) (r : IRecent) :
  covered paths h -> matches paths (recentUri r) -> covered paths (addEntry h r).
Proof.
  intros [Hw Hf] Hr. unfold addEntry, covered.
  destruct r as [f | p]; cbn [prepend withoutLocation workspaces files recentUri] in *;
    split; intros a Ha;
    repeat match goal with
           | H : In _ (_ :: _) |- _ => destruct H as [<- | H]; [exact Hr|]
           | H : In _ (filter _ _) |- _ => apply filter_In in H; destruct H as [H _]
           end; auto.
Qed.

Lemma covered_fold (paths : list URI) (l : list IRecent) (h : IRecentlyOpened) :
  covered paths h -> (forall r, In r l -> matches paths (recentUri r)) ->
  covered paths (fold_left addEntry l h).
Proof.
  revert h. induction l as [|r l IH]; intros h Hh Hl; [exact Hh|].
  cbn [fold_left]. apply IH.
  - apply covered_addEntry; [exact Hh | apply Hl; now left].
  - intros r' Hr'. apply Hl. now right.
Qed.

Lemma covered_frontOf (l : list IRecent) : covered (map recentUri l) (frontOf l).
Proof.
  apply covered_fold.
  - split; intros a [].
  - intros r Hr. unfold matches. rewrite map_map.
    apply in_map_iff. exists r. split; [reflexivity | exact Hr].
Qed.

Lemma withoutLocations_idem (paths : list URI) (h : IRecentlyOpened) :
  withoutLocations paths (withoutLocations paths h) = withoutLocations paths h.
Proof.
  rewrite withoutLocations_twice. unfold withoutLocations.
  f_equal; apply filter_ext; intros a; rewrite matchesb_app; now destruct (matchesb paths _).
Qed.

Lemma fold_addEntry_idem (l : list IRecent) (h : IRecentlyOpened) :
  fold_left addEntry l (fold_left addEntry l h) = fold_left addEntry l h.
Proof.
  rewrite (fold_addEntry_happ l (fold_left addEntry l h)), (fold_addEntry_happ l h).
  rewrite withoutLocations_happ, withoutLocations_idem.
  now rewrite (covered_withoutLocations _ _ (covered_frontOf l)), happ_empty_l.
Qed.

Lemma withoutLocations_fold (l : list IRecent) (h : IRecentlyOpened) :
  withoutLocations (map recentUri l) (fold_left addEntry l h) =
  withoutLocations (map recentUri l) h.
Proof.
  rewrite fold_addEntry_happ, withoutLocations_happ, withoutLocations_idem.
  now rewrite (covered_withoutLocations _ _ (covered_frontOf l)), happ_empty_l.
Qed.

Lemma withoutLocations_comm (p1 p2 : list URI) (h : IRecentlyOpened) :
  withoutLocations p2 (withoutLocations p1 h) =
  withoutLocations p1 (withoutLocations p2 h).
Proof.
  rewrite !withoutLocations_twice. unfold withoutLocations.
  f_equal; apply filter_ext; intros a; rewrite !matchesb_app; now rewrite orb_comm.
Qed.

(** X1. [addRecentlyOpened] keeps, behind the entries it adds and in their
    order, every entry whose location is none of the added ones; the block
    it puts in front depends on the added entries alone and holds only
    entries of their locations. *)
Theorem addRecentlyOpened_keeps_others (recents : list IRecent) (w : World)
    (h : IRecentlyOpened) :
  history w = Some h ->
  history (after_call (addRecentlyOpened recents) w) =
    Some (happ (frontOf recents) (withoutLocations (map recentUri recents) h)) /\
  covered (map recentUri recents) (frontOf recents).
Proof.
  intros H. split; [|apply covered_frontOf].
  rewrite (history_add recents w h H), fold_addRecent. f_equal.
  apply fold_addEntry_happ.
Qed.

Lemma addRecentlyOpened_keeps_others_witness :
  history (after_call (addRecentlyOpened [folder "file:///a"]) freshWorld) =
    Some (mkRecentlyOpened [RecentFolder (mkURI (js "file:///a"))] []) /\
  history (after_call (addRecentlyOpened [folder "file:///b"])
             (after_call (addRecentlyOpened [folder "file:///a"]) freshWorld)) =
    Some (mkRecentlyOpened [RecentFolder (mkURI (js "file:///b"));
                            RecentFolder (mkURI (js "file:///a"))] []).
Proof.
  split; [reflexivity|].
  exact (proj1 (addRecentlyOpened_keeps_others [folder "file:///b"]
                  (after_call (addRecentlyOpened [folder "file:///a"]) freshWorld)
                  (mkRecentlyOpened [RecentFolder (mkURI (js "file:///a"))] [])
                  eq_refl)).
Defined.

(** X2. Adding the same entries a second time changes nothing: the history
    after two calls of [addRecentlyOpened] with the same list is the
    history after one. *)
Theorem addRecentlyOpened_twice (recents : list IRecent) (w : World)
    (h : IRecentlyOpened) :
  history w = Some h ->
  history (after_call (addRecentlyOpened recents)
             (after_call (addRecentlyOpened recents) w)) =
  history (after_call (addRecentlyOpened recents) w).
Proof.
  intros H. pose proof (history_add recents w h H) as H1.
  rewrite (history_add recents _ _ H1), H1, !fold_addRecent. f_equal.
  apply fold_addEntry_idem.
Qed.

Lemma addRecentlyOpened_twice_witness :
  history freshWorld = Some emptyHistory /\
  history (after_call (addRecentlyOpened [folder "file:///a"; folder "file:///b"])
             (after_call (addRecentlyOpened [folder "file:///a"; folder "file:///b"])
                freshWorld)) =
  history (after_call (addRecentlyOpened [folder "file:///a"; folder "file:///b"])
             freshWorld).
Proof.
  split; [reflexivity|].
  exact (addRecentlyOpened_twice [folder "file:///a"; folder "file:///b"]
           freshWorld emptyHistory eq_refl).
Defined.

(** X3. Two calls of [removeFromRecentlyOpened] leave the history one call
    with both lists of locations leaves, in whichever order they are
    made. *)
Theorem removeFromRecentlyOpened_composes (p1 p2 : list URI) (w : World)
    (h : IRecentlyOpened) :
  history w = Some h ->
  history (after_call (removeFromRecentlyOpened p2)
             (after_call (removeFromRecentlyOpened p1) w)) =
    history (after_call (removeFromRecentlyOpened (p1 ++ p2)) w) /\
  history (after_call (removeFromRecentlyOpened p2)
             (after_call (removeFromRecentlyOpened p1) w)) =
    history (after_call (removeFromRecentlyOpened p1)
               (after_call (removeFromRecentlyOpened p2) w)).
Proof.
  intros H.
  pose proof (history_remove p1 w h H) as H1.
  pose proof (history_remove p2 w h H) as H2.
  rewrite (history_remove p2 _ _ H1), (history_remove p1 _ _ H2).
  rewrite (history_remove (p1 ++ p2) w h H), !doRemove_withoutLocations.
  split; f_equal; [apply withoutLocations_twice | apply withoutLocations_comm].
Qed.

Lemma removeFromRecentlyOpened_composes_witness :
  history (after_call (addRecentlyOpened [folder "file:///a"; folder "file:///b"])
             freshWorld) =
    Some (mkRecentlyOpened [RecentFolder (mkURI (js "file:///b"));
                            RecentFolder (mkURI (js "file:///a"))] []) /\
  history (after_call (removeFromRecentlyOpened [mkURI (js "file:///b")])
             (after_call (removeFromRecentlyOpened [mkURI (js "file:///a")])
                (after_call (addRecentlyOpened [folder "file:///a"; folder "file:///b"])
                   freshWorld))) =
  history (after_call (removeFromRecentlyOpened
                         ([mkURI (js "file:///a")] ++ [mkURI (js "file:///b")]))
             (after_call (addRecentlyOpened [folder "file:///a"; folder "file:///b"])
                freshWorld)).
Proof.
  split; [reflexivity|].
  exact (proj1 (removeFromRecentlyOpened_composes
                  [mkURI (js "file:///a")] [mkURI (js "file:///b")]
                  (after_call (addRecentlyOpened [folder "file:///a"; folder "file:///b"])
                     freshWorld)
                  (mkRecentlyOpened [RecentFolder (mkURI (js "file:///b"));
                                     RecentFolder (mkURI (js "file:///a"))] [])
                  eq_refl)).
Defined.

(** X4. Removing the locations of entries that were just added leaves the
    history that removing them before the addition would have left; when
    no entry had one of these locations, that is the history before the
    addition. *)
Theorem add_then_remove (recents : list IRecent) (w : World) (h : IRecentlyOpened) :
  history w = Some h ->
  history (after_call (removeFromRecentlyOpened (map recentUri recents))
             (after_call (addRecentlyOpened recents) w)) =
    Some (withoutLocations (map recentUri recents) h) /\
  (untouched (map recentUri recents) h ->
   history (after_call (removeFromRecentlyOpened (map recentUri recents))
              (after_call (addRecentlyOpened recents) w)) = Some h).
Proof.
  intros H. pose proof (history_add recents w h H) as H1.
  rewrite (history_remove _ _ _ H1), doRemove_withoutLocations, fold_addRecent.
  rewrite withoutLocations_fold. split; [reflexivity|].
  intros Hu. now rewrite untouched_withoutLocations.
Qed.

Lemma add_then_remove_witness :
  history (after_call (addRecentlyOpened [folder "file:///a"]) freshWorld) =
    Some (mkRecentlyOpened [RecentFolder (mkURI (js "file:///a"))] []) /\
  history (after_call (removeFromRecentlyOpened (map recentUri [folder "file:///b"]))
             (after_call (addRecentlyOpened [folder "file:///b"])
                (after_call (addRecentlyOpened [folder "file:///a"]) freshWorld))) =
    Some (mkRecentlyOpened [RecentFolder (mkURI (js "file:///a"))] []).
Proof.
  split; [reflexivity|].
  exact (proj1 (add_then_remove [folder "file:///b"]
                  (after_call (addRecentlyOpened [folder "file:///a"]) freshWorld)
                  (mkRecentlyOpened [RecentFolder (mkURI (js "file:///a"))] [])
                  eq_refl)).
Defined.

(** ** A stored text that is no JSON *)

Lemma getRecentlyOpened_malformed (w : World) (c : N) (raw : jsstring) :
  stored w = Some (c :: raw) -> parse (c :: raw) = None ->
  getRecentlyOpened w = (Thrown SyntaxError, w).
Proof. intros Hs Hp. now rewrite getRecentlyOpened_eq, Hs, Hp. Qed.

Lemma call_malformed (w : World) (c : N) (raw : jsstring) (k : Call) :
  stored w = Some (c :: raw) -> parse (c :: raw) = None ->
  after_call (call k) w = w.
Proof.
  intros Hs Hp. pose proof (getRecentlyOpened_malformed w c raw Hs Hp) as E.
  assert (Ha : forall recents, addRecentlyOpened recents w = (Thrown SyntaxError, w)).
  { intros recents. unfold addRecentlyOpened, bind. now rewrite E. }
  unfold after_call. destruct k as [recents | paths |]; cbn [call].
  - now rewrite Ha.
  - unfold removeFromRecentlyOpened, bind. now rewrite E.
  - unfold addWorkspaceToRecentlyOpened.
    destruct (workbenchState w); [reflexivity | |].
    + destruct (workspace_folders (workspace w)); [reflexivity | now rewrite Ha].
    + destruct (workspace_configuration (workspace w)); [now rewrite Ha | reflexivity].
Qed.

(** X5. Once the stored text is not JSON, the history cannot be written
    any more: [addRecentlyOpened] and [removeFromRecentlyOpened] throw the
    [SyntaxError] of the read they start with, and no sequence of add,
    remove and start-up calls changes the world, the stored text
    included. *)
Theorem malformed_blob_is_stuck (w : World) (c : N) (raw : jsstring) :
  stored w = Some (c :: raw) -> parse (c :: raw) = None ->
  (forall recents, addRecentlyOpened recents w = (Thrown SyntaxError, w)) /\
  (forall paths, removeFromRecentlyOpened paths w = (Thrown SyntaxError, w)) /\
  (forall cs, runCalls cs w = w).
Proof.
  intros Hs Hp. pose proof (getRecentlyOpened_malformed w c raw Hs Hp) as E.
  split; [|split].
  - intros recents. unfold addRecentlyOpened, bind. now rewrite E.
  - intros paths. unfold removeFromRecentlyOpened, bind. now rewrite E.
  - intros cs. induction cs as [|k cs IH]; [reflexivity|].
    cbn [runCalls]. now rewrite (call_malformed w c raw k Hs Hp).
Qed.

Lemma malformed_blob_is_stuck_witness :
  stored (worldWith [(StorageScope.GLOBAL, RECENTLY_OPENED_KEY, js "{")]) = Some (js "{") /\
  parse (js "{") = None /\
  runCalls [Add [folder "file:///a"]; Remove []; Startup]
           (worldWith [(StorageScope.GLOBAL, RECENTLY_OPENED_KEY, js "{")]) =
  worldWith [(StorageScope.GLOBAL, RECENTLY_OPENED_KEY, js "{")].
Proof.
  split; [reflexivity|]. split; [reflexivity|].
  exact (proj2 (proj2
           (malformed_blob_is_stuck
              (worldWith [(StorageScope.GLOBAL, RECENTLY_OPENED_KEY, js "{")])
              123%N [] eq_refl eq_refl))
           [Add [folder "file:///a"]; Remove []; Startup]).
Defined.

(** X6. [getRecentlyOpened] only reads: it leaves the storage as it was and
    makes no call of [storageService.store], and a second call returns
    what the first returned. *)
Theorem getRecentlyOpened_reads_only (w : World) :
  let w1 := after_call getRecentlyOpened w in
  storage w1 = storage w /\
  filter isStore (trace w1) = filter isStore (trace w) /\
  fst (getRecentlyOpened w1) = fst (getRecentlyOpened w).
Proof.
  cbv zeta. unfold after_call at 1 2 3.
  assert (H : snd (getRecentlyOpened w) = w \/
              snd (getRecentlyOpened w) = after_call (emit LogWarn) w).
  { rewrite getRecentlyOpened_eq.
    destruct (stored w) as [[|c raw]|]; auto.
    destruct (parse (c :: raw)) as [data|]; auto.
    destruct (decode data); auto. }
  remember (snd (getRecentlyOpened w)) as w1 eqn:Ew1. clear Ew1.
  assert (Hst : storage w1 = storage w) by (destruct H as [-> | ->]; reflexivity).
  split; [exact Hst|]. split.
  - destruct H as [-> | ->]; [reflexivity|].
    unfold after_call, emit. cbn [snd trace]. rewrite filter_app. cbn. apply app_nil_r.
  - rewrite (getRecentlyOpened_eq w1), (getRecentlyOpened_eq w). unfold stored.
    rewrite Hst.
    destruct (storage_get (storage w) RECENTLY_OPENED_KEY StorageScope.GLOBAL)
      as [[|c raw]|]; try reflexivity.
    destruct (parse (c :: raw)) as [data|]; [|reflexivity].
    destruct (decode data); reflexivity.
Qed.

(** ** [openWindow]: files that are rejected, and requests without files *)

Section OpenWindowEdges.

Variable path : URI -> jsstring.
Variable pathsToEditors : list IURIToOpen -> Outcome (list IResourceEditor).

Lemma dispatched_app (d : bool) (origin : jsstring) (pre rest : list IURIToOpen) :
  outcome pathsToEditors pre = Returned tt ->
  dispatched path pathsToEditors d origin (pre ++ rest) =
    dispatched path pathsToEditors d origin pre ++
    dispatched path pathsToEditors d origin rest /\
  outcome pathsToEditors (pre ++ rest) = outcome pathsToEditors rest.
Proof.
  induction pre as [|a pre IH]; intros Hout; [split; reflexivity|].
  cbn [app dispatched outcome] in *.
  destruct (open_fileUri a).
  - destruct (pathsToEditors [a]); [|discriminate].
    destruct (IH Hout) as [-> ->]. split; [|reflexivity].
    now rewrite <- app_assoc.
  - destruct (IH Hout) as [-> ->]. split; [|reflexivity].
    now rewrite <- app_assoc.
Qed.

Lemma dispatched_without_files (d : bool) (origin : jsstring) (uris : list IURIToOpen) :
  (forall uri, In uri uris -> open_fileUri uri = None) ->
  dispatched path pathsToEditors d origin uris =
    flat_map (navigation path d origin) uris /\
  outcome pathsToEditors uris = Returned tt.
Proof.
  induction uris as [|a uris IH]; intros H; [split; reflexivity|].
  cbn [dispatched outcome flat_map].
  rewrite (H a (or_introl eq_refl)).
  destruct IH as [-> ->]; [|split; reflexivity].
  intros uri Hin. apply H. now right.
Qed.

End OpenWindowEdges.

(** X7. When [pathsToEditors] rejects a file of a request, [openWindow]
    rejects with that error and stops there: what it has done is what the
    targets before the file asked for and the navigation of the target of
    the file itself, and nothing of the targets after it. *)
Theorem openWindow_stops_at_rejection (path : URI -> jsstring)
    (pathsToEditors : list IURIToOpen -> Outcome (list IResourceEditor))
    (pre post : list IURIToOpen) (bad : IURIToOpen) (fileUri : URI) (e : Error)
    (_options : option IOpenSettings) (w : World) :
  outcome pathsToEditors pre = Returned tt ->
  open_fileUri bad = Some fileUri ->
  pathsToEditors [bad] = Thrown e ->
  let d := shouldOpenNewWindow (windowConfig w) _options in
  openWindow path pathsToEditors (pre ++ bad :: post) _options w =
  (Thrown e,
   record (dispatched path pathsToEditors d (origin w) pre ++
           navigation path d (origin w) bad) w).
Proof.
  intros Hpre Hfile Hbad d. rewrite openWindow_eq. fold d.
  destruct (dispatched_app path pathsToEditors d (origin w) pre (bad :: post) Hpre)
    as [-> ->].
  cbn [dispatched outcome]. rewrite Hfile, Hbad, app_nil_r. reflexivity.
Qed.

Lemma openWindow_stops_at_rejection_witness :
  outcome noEditors [folderToOpen (mkURI (js "file:///proj"))] = Returned tt /\
  openWindow filePath noEditors
    ([folderToOpen (mkURI (js "file:///proj"))] ++
     fileToOpen (mkURI (js "file:///a.txt")) ::
     [folderToOpen (mkURI (js "file:///other"))]) None freshWorld =
  (Thrown (Rejected (js "ENOENT")),
   record [LocationHref (js "http://localhost:8080/?folder=/proj")] freshWorld).
Proof.
  split; [reflexivity|].
  exact (openWindow_stops_at_rejection filePath noEditors
           [folderToOpen (mkURI (js "file:///proj"))]
           [folderToOpen (mkURI (js "file:///other"))]
           (fileToOpen (mkURI (js "file:///a.txt"))) (mkURI (js "file:///a.txt"))
           (Rejected (js "ENOENT")) None freshWorld eq_refl eq_refl eq_refl).
Defined.

(** X8. A request with no file target does not reach [pathsToEditors]:
    whatever that collaborator would do, [openWindow] returns, and what it
    has done is the navigations of the targets, in their order. *)
Theorem openWindow_without_files (path : URI -> jsstring)
    (pathsToEditors : list IURIToOpen -> Outcome (list IResourceEditor))
    (uris : list IURIToOpen) (_options : option IOpenSettings) (w : World) :
  (forall uri, In uri uris -> open_fileUri uri = None) ->
  openWindow path pathsToEditors uris _options w =
  (Returned tt,
   record (flat_map (navigation path (shouldOpenNewWindow (windowConfig w) _options)
                                (origin w)) uris) w).
Proof.
  intros H. rewrite openWindow_eq.
  destruct (dispatched_without_files path pathsToEditors
              (shouldOpenNewWindow (windowConfig w) _options) (origin w) uris H)
    as [-> ->].
  reflexivity.
Qed.

Lemma openWindow_without_files_witness :
  (forall uri, In uri [folderToOpen (mkURI (js "file:///a"));
                       workspaceToOpen (mkURI (js "file:///b.code-workspace"))] ->
               open_fileUri uri = None) /\
  openWindow filePath noEditors
    [folderToOpen (mkURI (js "file:///a"));
     workspaceToOpen (mkURI (js "file:///b.code-workspace"))]
    (Some (mkOpenSettings (Some true) None)) freshWorld =
  (Returned tt,
   record [WindowOpen (js "http://localhost:8080/?folder=/a");
           WindowOpen (js "http://localhost:8080/?workspace=/b.code-workspace")]
          freshWorld).
Proof.
  assert (H : forall uri,
            In uri [folderToOpen (mkURI (js "file:///a"));
                    workspaceToOpen (mkURI (js "file:///b.code-workspace"))] ->
            open_fileUri uri = None).
  { intros uri [<- | [<- | []]]; reflexivity. }
  split; [exact H|].
  exact (openWindow_without_files filePath noEditors _
           (Some (mkOpenSettings (Some true) None)) freshWorld H).
Defined.

(** ** The start of the service *)

Lemma addRecentlyOpened_environment (recents : list IRecent) (w : World) :
  workbenchState (after_call (addRecentlyOpened recents) w) = workbenchState w /\
  workspace (after_call (addRecentlyOpened recents) w) = workspace w.
Proof.
  unfold after_call, addRecentlyOpened, bind. rewrite getRecentlyOpened_eq.
  destruct (stored w) as [[|c raw]|]; try (split; reflexivity).
  destruct (parse (c :: raw)) as [data|]; [|split; reflexivity].
  destruct (decode data); split; reflexivity.
Qed.

Lemma activeWorkspace_startup (w : World) :
  activeWorkspace (after_call addWorkspaceToRecentlyOpened w) = activeWorkspace w.
Proof.
  assert (H : workbenchState (after_call addWorkspaceToRecentlyOpened w) = workbenchState w /\
              workspace (after_call addWorkspaceToRecentlyOpened w) = workspace w).
  { unfold after_call at 1 2, addWorkspaceToRecentlyOpened.
    destruct (workbenchState w) eqn:E; rewrite <- E; [split; reflexivity | |].
    - destruct (workspace_folders (workspace w)); [split; reflexivity|].
      apply addRecentlyOpened_environment.
    - destruct (workspace_configuration (workspace w)); [|split; reflexivity].
      apply addRecentlyOpened_environment. }
  destruct H as [H1 H2]. unfold activeWorkspace. now rewrite H1, H2.
Qed.

Lemma addEntry_idem (h : IRecentlyOpened) (r : IRecent) :
  addEntry (addEntry h r) r = addEntry h r.
Proof. exact (fold_addEntry_idem [r] h). Qed.

(** X9. The start of the service is idempotent on the history: starting a
    second time (a reload of the window) leaves the history the first
    start left, with the folder or workspace the window shows as the first
    of the workspaces; and a window that shows none leaves the world as it
    was. *)
Theorem startup_twice (w : World) (h : IRecentlyOpened) :
  history w = Some h ->
  history (after_call addWorkspaceToRecentlyOpened
             (after_call addWorkspaceToRecentlyOpened w)) =
    history (after_call addWorkspaceToRecentlyOpened w) /\
  (forall p, activeWorkspace w = Some (OfPlace p) ->
     exists h', history (after_call addWorkspaceToRecentlyOpened w) = Some h' /\
                hd_error (workspaces h') = Some p) /\
  (activeWorkspace w = None -> after_call addWorkspaceToRecentlyOpened w = w).
Proof.
  intros H. pose proof (history_startup w h H) as H1.
  split; [|split].
  - rewrite (history_startup _ _ H1), activeWorkspace_startup, H1.
    destruct (activeWorkspace w); [|reflexivity].
    now rewrite addEntry_idem.
  - intros p Hp. rewrite Hp in H1. eexists. split; [exact H1 | reflexivity].
  - unfold activeWorkspace, after_call, addWorkspaceToRecentlyOpened.
    destruct (workbenchState w); [reflexivity | |].
    + destruct (workspace_folders (workspace w)); [reflexivity | discriminate].
    + destruct (workspace_configuration (workspace w)); [discriminate | reflexivity].
Qed.

Lemma startup_twice_witness :
  history (folderWorld (mkURI (js "file:///proj"))) = Some emptyHistory /\
  history (after_call addWorkspaceToRecentlyOpened
             (after_call addWorkspaceToRecentlyOpened
                (folderWorld (mkURI (js "file:///proj"))))) =
  history (after_call addWorkspaceToRecentlyOpened
             (folderWorld (mkURI (js "file:///proj")))).
Proof.
  split; [reflexivity|].
  exact (proj1 (startup_twice (folderWorld (mkURI (js "file:///proj")))
                  emptyHistory eq_refl)).
Defined.

(** ** The address of the extension development host, and its query *)

Lemma openExtensionDevelopmentHostWindow_address_eq
    (parsedPath : option jsstring -> Outcome jsstring) (args : ParsedArgs) (w : World) :
  openExtensionDevelopmentHostWindow parsedPath args w =
  match andThen (hostParameters parsedPath args) (addressOf (origin w)) with
  | Returned address => (Returned tt, record [WindowOpen address] w)
  | Thrown e => (Thrown e, w)
  end.
Proof.
  unfold openExtensionDevelopmentHostWindow. rewrite extensionHostAddress_eq.
  destruct (andThen (hostParameters parsedPath args) (addressOf (origin w)));
    reflexivity.
Qed.

(** X10. [openExtensionDevelopmentHostWindow] opens one window, on the
    origin, [/?] and the parameters with one [&] between two of them: first
    [folder] with the path of the folder when a folder is given and
    [ew=true] when none is, and then at most three more, [edp], [di] and
    [ibe] for the arguments that are given, each value encoded; when the
    folder cannot be parsed or a value cannot be encoded it throws and
    opens nothing.  It never touches the storage. *)
Theorem openExtensionDevelopmentHostWindow_address
    (parsedPath : option jsstring -> Outcome jsstring) (args : ParsedArgs) (w : World) :
  openExtensionDevelopmentHostWindow parsedPath args w =
    match andThen (hostParameters parsedPath args) (addressOf (origin w)) with
    | Returned address => (Returned tt, record [WindowOpen address] w)
    | Thrown e => (Thrown e, w)
    end /\
  storage (after_call (openExtensionDevelopmentHostWindow parsedPath args) w) =
    storage w /\
  (forall ps, hostParameters parsedPath args = Returned ps ->
     exists first rest,
       ps = first :: rest /\ (List.length rest <= 3)%nat /\
       (if truthy_arg (folder_uri args) then fst first = js "folder"
        else first = (js "ew", js "true")) /\
       Forall (fun p => In (fst p) [js "edp"; js "di"; js "ibe"]) rest).
Proof.
  split; [apply openExtensionDevelopmentHostWindow_address_eq|]. split.
  - unfold after_call. rewrite openExtensionDevelopmentHostWindow_address_eq.
    destruct (andThen (hostParameters parsedPath args) (addressOf (origin w)));
      reflexivity.
  - intros ps. unfold hostParameters.
    set (rest := (if truthy_arg (extensionDevelopmentPath args)
                  then [(js "edp", stringOf (index0 (extensionDevelopmentPath args)))]
                  else []) ++
                 (if truthy (debugId args)
                  then [(js "di", stringOf (debugId args))] else []) ++
                 (if truthy (inspect_brk_extensions args)
                  then [(js "ibe", stringOf (inspect_brk_extensions args))] else [])).
    assert (Hrest : (List.length rest <= 3)%nat /\
                    Forall (fun p => In (fst p) [js "edp"; js "di"; js "ibe"]) rest).
    { unfold rest.
      destruct (truthy_arg (extensionDevelopmentPath args)), (truthy (debugId args)),
               (truthy (inspect_brk_extensions args));
        cbn [app]; (split; [cbn [List.length]; lia|]);
        repeat (apply Forall_cons; [cbn [fst In]; tauto|]); apply Forall_nil. }
    destruct (truthy_arg (folder_uri args)).
    + destruct (parsedPath (index0 (folder_uri args))) as [p|e]; cbn [andThen];
        [|discriminate].
      intros E. injection E as <-. exists (js "folder", p), rest. tauto.
    + cbn [andThen]. intros E. injection E as <-.
      exists (js "ew", js "true"), rest. tauto.
Qed.

Lemma splitOn_plain (sep : N) (s : jsstring) :
  ~ In sep s -> splitOn sep s = [s].
Proof.
  induction s as [|c s IH]; intros H; [reflexivity|]. cbn [splitOn].
  destruct (N.eqb_spec c sep) as [-> | _]; [exfalso; apply H; now left|].
  rewrite IH; [reflexivity|]. intros Hin. apply H. now right.
Qed.

Lemma splitOn_app (sep : N) (a b : jsstring) :
  ~ In sep a -> splitOn sep (a ++ sep :: b) = a :: splitOn sep b.
Proof.
  induction a as [|c a IH]; intros H; cbn [app splitOn].
  - now rewrite N.eqb_refl.
  - destruct (N.eqb_spec c sep) as [-> | _]; [exfalso; apply H; now left|].
    rewrite IH; [reflexivity|]. intros Hin. apply H. now right.
Qed.

Lemma splitOn_joinWith (sep : N) (rs : list jsstring) :
  rs <> [] -> Forall (fun r => ~ In sep r) rs ->
  splitOn sep (joinWith sep rs) = rs.
Proof.
  induction rs as [|r rs IH]; [contradiction|]. intros _ H.
  inversion H as [|? ? Hr Hrs]; subst.
  destruct rs as [|y rs]; [now apply splitOn_plain|].
  change (joinWith sep (r :: y :: rs)) with (r ++ sep :: joinWith sep (y :: rs)).
  rewrite splitOn_app by assumption. f_equal. apply IH; [discriminate | assumption].
Qed.

Lemma hostParameters_keys (parsedPath : option jsstring -> Outcome jsstring)
    (args : ParsedArgs) (ps : list (jsstring * jsstring)) :
  hostParameters parsedPath args = Returned ps ->
  ps <> [] /\ Forall (fun p => In (fst p) hostKeys) ps.
Proof.
  unfold hostParameters, hostKeys.
  assert (Hrest : forall first, In (fst first) [js "folder"; js "ew"] ->
            Forall (fun p => In (fst p) [js "folder"; js "ew"; js "edp"; js "di"; js "ibe"])
              (first ::
               (if truthy_arg (extensionDevelopmentPath args)
                then [(js "edp", stringOf (index0 (extensionDevelopmentPath args)))]
                else []) ++
               (if truthy (debugId args) then [(js "di", stringOf (debugId args))] else []) ++
               (if truthy (inspect_brk_extensions args)
                then [(js "ibe", stringOf (inspect_brk_extensions args))] else []))).
  { intros first Hf.
    destruct (truthy_arg (extensionDevelopmentPath args)), (truthy (debugId args)),
             (truthy (inspect_brk_extensions args));
      cbn [app]; repeat (apply Forall_cons; [cbn [fst In] in *; tauto|]);
      apply Forall_nil. }
  destruct (truthy_arg (folder_uri args)).
  - destruct (parsedPath (index0 (folder_uri args))) as [p|e]; cbn [andThen];
      [|discriminate].
    intros E. injection E as <-. split; [discriminate|].
    apply Hrest. now left.
  - cbn [andThen]. intros E. injection E as <-. split; [discriminate|].
    apply Hrest. right. now left.
Qed.

Lemma hostKeys_plain (k : jsstring) :
  In k hostKeys -> ~ In 38%N k /\ ~ In 61%N k.
Proof.
  unfold hostKeys. cbn [In].
  intros [<- | [<- | [<- | [<- | [<- | []]]]]]; split; cbn;
    intros H; repeat (destruct H as [H | H]; [discriminate|]); exact H.
Qed.

Lemma componentChars_plain (e : jsstring) (c : N) :
  Forall componentChar e -> c = 38%N \/ c = 61%N -> ~ In c e.
Proof.
  intros He Hc Hin. rewrite Forall_forall in He.
  apply He, componentChar_plain in Hin. destruct Hc as [-> | ->]; tauto.
Qed.

(** X11. The query of the address [openExtensionDevelopmentHostWindow]
    opens can be read back: split at [&] it gives the parameters, as many
    as were added and in their order, and each of them split at [=] gives
    its name and its encoded value; no value can add, hide or rename a
    parameter. *)
Theorem host_query_splits (parsedPath : option jsstring -> Outcome jsstring)
    (args : ParsedArgs) (ps : list (jsstring * jsstring)) (rs : list jsstring)
    (w : World) :
  hostParameters parsedPath args = Returned ps ->
  renderParameters ps = Some rs ->
  openExtensionDevelopmentHostWindow parsedPath args w =
    (Returned tt, record [WindowOpen (origin w ++ js "/?" ++ joinWith 38%N rs)] w) /\
  splitOn 38%N (joinWith 38%N rs) = rs /\
  Forall2 (fun p r => exists e, encodeURIComponent (snd p) = Some e /\
                                splitOn 61%N r = [fst p; e]) ps rs.
Proof.
  intros Hps Hrs.
  destruct (hostParameters_keys parsedPath args ps Hps) as [Hne Hkeys].
  assert (Hshape : Forall2 (fun p r => In (fst p) hostKeys /\
                              exists e, encodeURIComponent (snd p) = Some e /\
                                        r = fst p ++ 61%N :: e /\
                                        Forall componentChar e) ps rs).
  { clear Hps Hne. revert rs Hrs. induction Hkeys as [|p ps Hp _ IH]; intros rs;
      cbn [renderParameters].
    - intros E. injection E as <-. constructor.
    - unfold renderParameter at 1.
      destruct (encodeURIComponent (snd p)) as [e|] eqn:He; [|discriminate].
      destruct (renderParameters ps) as [rs'|]; [|discriminate].
      intros E. injection E as <-. constructor; [|now apply IH].
      split; [exact Hp|]. exists e. split; [exact He|]. split; [reflexivity|].
      now apply encodeURIComponent_chars with (s := snd p). }
  split; [|split].
  - rewrite openExtensionDevelopmentHostWindow_address_eq, Hps. cbn [andThen].
    unfold addressOf. now rewrite Hrs.
  - apply splitOn_joinWith.
    + now apply renderParameters_nonempty with (ps := ps).
    + clear Hps Hrs Hne Hkeys. induction Hshape as [|p r ps rs [Hk [e [_ [-> He]]]] _ IH];
        constructor; [|exact IH].
      intros Hin. apply in_app_or in Hin. destruct Hin as [Hin | [Hin | Hin]].
      * now apply (proj1 (hostKeys_plain _ Hk)).
      * discriminate.
      * revert Hin. apply componentChars_plain; auto.
  - clear Hps Hrs Hne Hkeys. induction Hshape as [|p r ps rs [Hk [e [Henc [-> He]]]] _ IH];
      constructor; [|exact IH].
    exists e. split; [exact Henc|].
    rewrite splitOn_app by (apply (proj2 (hostKeys_plain _ Hk))).
    f_equal. apply splitOn_plain. apply componentChars_plain; auto.
Qed.

Lemma host_query_splits_witness :
  hostParameters (fun v => Returned (skipn 7 (stringOf v)))
    (mkParsedArgs (Some (ArgArray [js "file:///a b"])) None (Some (js "x&y=z")) None) =
    Returned [(js "folder", js "/a b"); (js "di", js "x&y=z")] /\
  renderParameters [(js "folder", js "/a b"); (js "di", js "x&y=z")] =
    Some [js "folder=%2Fa%20b"; js "di=x%26y%3Dz"] /\
  splitOn 38%N (joinWith 38%N [js "folder=%2Fa%20b"; js "di=x%26y%3Dz"]) =
    [js "folder=%2Fa%20b"; js "di=x%26y%3Dz"].
Proof.
  split; [reflexivity|]. split; [reflexivity|].
  exact (proj1 (proj2
           (host_query_splits (fun v => Returned (skipn 7 (stringOf v)))
              (mkParsedArgs (Some (ArgArray [js "file:///a b"])) None
                            (Some (js "x&y=z")) None)
              [(js "folder", js "/a b"); (js "di", js "x&y=z")]
              [js "folder=%2Fa%20b"; js "di=x%26y%3Dz"]
              freshWorld eq_refl eq_refl))).
Defined.

(** ** [toggleFullScreen] *)

Lemma caught_call (failure : DomCall -> option Error) (c : DomCall)
    (t : list PageEvent) :
  pageCatch (domCall failure c) (consoleWarn (warningOf c)) t =
  (Returned tt, t ++ toggleEvents failure (Some c)).
Proof.
  unfold pageCatch, domCall, consoleWarn, toggleEvents.
  destruct (failure c); [|reflexivity].
  now rewrite <- app_assoc.
Qed.

Lemma toggleFullScreen_eq (HTMLElement : Type) (failure : DomCall -> option Error)
    (target : option HTMLElement) (document : Document) (t : list PageEvent) :
  toggleFullScreen HTMLElement failure target document t =
  (Returned tt, t ++ toggleEvents failure (toggleCall (hasTarget target) document)).
Proof.
  destruct target as [el|]; cbn [toggleFullScreen hasTarget toggleCall].
  2:{ unfold pageRet. cbn [toggleEvents]. now rewrite app_nil_r. }
  destruct document as [[[|]|] wk]; cbn [fullscreen webkitIsFullScreen negb].
  - apply (caught_call failure exitFullscreen).
  - apply (caught_call failure requestFullscreen).
  - unfold pageBind.
    destruct wk as [[|]|]; cbn [negb].
    + now rewrite (caught_call failure webkitExitFullscreen).
    + now rewrite (caught_call failure webkitRequestFullscreen).
    + unfold pageRet. cbn [toggleEvents]. now rewrite app_nil_r.
Qed.

(** X12. [toggleFullScreen] never rejects, whatever the calls of the
    browser do.  It makes one call at most: none without a target or when
    the document has neither interface; with the standard interface a
    request when the document is not full screen and an exit when it is,
    and never one of the webkit interface, also when the standard call
    fails; it warns on the console when the call it made has failed, and
    only then. *)
Theorem toggleFullScreen_never_rejects (HTMLElement : Type)
    (failure : DomCall -> option Error) (target : option HTMLElement)
    (document : Document) (t : list PageEvent) :
  exists events,
    toggleFullScreen HTMLElement failure target document t =
      (Returned tt, t ++ events) /\
    filter isCalled events =
      match toggleCall (hasTarget target) document with
      | Some c => [Called c]
      | None => []
      end /\
    (fullscreen document <> None ->
     forall c, In (Called c) events -> isWebkit c = false) /\
    ((exists message, In (ConsoleWarn message) events) <->
     (exists c e, toggleCall (hasTarget target) document = Some c /\
                  failure c = Some e)).
Proof.
  exists (toggleEvents failure (toggleCall (hasTarget target) document)).
  split; [apply toggleFullScreen_eq|].
  assert (Hstd : fullscreen document <> None ->
                 forall c, toggleCall (hasTarget target) document = Some c ->
                           isWebkit c = false).
  { unfold toggleCall. destruct (hasTarget target); [|discriminate].
    destruct (fullscreen document) as [[|]|]; [| |contradiction];
      intros _ c E; injection E as <-; reflexivity. }
  destruct (toggleCall (hasTarget target) document) as [c|]; cbn [toggleEvents].
  - split; [destruct (failure c); reflexivity|]. split.
    + intros Hfs c' Hin.
      assert (E : c' = c).
      { destruct Hin as [Hin | Hin]; [now injection Hin|].
        destruct (failure c); [destruct Hin as [Hin | []]; discriminate | destruct Hin]. }
      subst c'. now apply Hstd.
    + split.
      * intros [m Hin]. exists c.
        destruct (failure c) as [e|]; [exists e; split; reflexivity|].
        destruct Hin as [Hin | []]. discriminate.
      * intros [c' [e [Hc He]]]. injection Hc as <-. rewrite He.
        exists (warningOf c). right. now left.
  - split; [reflexivity|]. split; [intros _ c []|]. split.
    + intros [m []].
    + intros [c [e [Hc _]]]. discriminate.
Qed.

(** ** Additions of new locations *)

Lemma frontOf_snoc (l : list IRecent) (r : IRecent) :
  frontOf (l ++ [r]) = addEntry (frontOf l) r.
Proof. unfold frontOf. now rewrite fold_left_app. Qed.

Lemma covered_untouched (paths : list URI) (x : URI) (h : IRecentlyOpened) :
  covered paths h -> ~ matches paths x -> untouched [x] h.
Proof.
  intros [Hw Hf] Hx. unfold matches in *.
  split; intros a Ha Hm; apply Hx; cbn [map In] in Hm;
    destruct Hm as [Hm | []]; rewrite Hm.
  - now apply Hw.
  - now apply Hf.
Qed.

Lemma frontOf_distinct (l : list IRecent) :
  NoDup (map (fun r => toString (recentUri r)) l) ->
  frontOf l = mkRecentlyOpened (rev (placesOf l)) (rev (filesOf l)).
Proof.
  induction l as [|r l IH] using rev_ind; intros Hnd; [reflexivity|].
  rewrite map_app in Hnd. cbn [map] in Hnd.
  assert (Hl : NoDup (map (fun r => toString (recentUri r)) l))
    by (now apply NoDup_app_remove_r in Hnd).
  assert (Hr : ~ matches (map recentUri l) (recentUri r)).
  { unfold matches. rewrite map_map. intros Hin.
    apply NoDup_remove_2 in Hnd. apply Hnd. now rewrite app_nil_r. }
  rewrite frontOf_snoc, addEntry_happ.
  rewrite (untouched_withoutLocations _ _
             (covered_untouched _ _ _ (covered_frontOf l) Hr)).
  rewrite (IH Hl). unfold placesOf, filesOf. rewrite !flat_map_app, !rev_app_distr.
  destruct r; reflexivity.
Qed.

(** X13. The history has no bound and evicts nothing: entries of pairwise
    different locations, none of which is in the history, are all added,
    the last one first, in front of all the entries the history had, which
    stay in their order. *)
Theorem addRecentlyOpened_evicts_nothing (recents : list IRecent) (w : World)
    (h : IRecentlyOpened) :
  history w = Some h ->
  NoDup (map (fun r => toString (recentUri r)) recents) ->
  untouched (map recentUri recents) h ->
  history (after_call (addRecentlyOpened recents) w) =
  Some (mkRecentlyOpened (rev (placesOf recents) ++ workspaces h)
                         (rev (filesOf recents) ++ files h)).
Proof.
  intros H Hnd Hu.
  rewrite (history_add recents w h H), fold_addRecent, fold_addEntry_happ.
  now rewrite (untouched_withoutLocations _ _ Hu), (frontOf_distinct recents Hnd).
Qed.

Lemma addRecentlyOpened_evicts_nothing_witness :
  history (after_call (addRecentlyOpened [folder "file:///a"]) freshWorld) =
    Some (mkRecentlyOpened [RecentFolder (mkURI (js "file:///a"))] []) /\
  NoDup (map (fun r => toString (recentUri r))
             [folder "file:///b"; OfFile (RecentFile (mkURI (js "file:///c.txt")))]) /\
  untouched (map recentUri
                 [folder "file:///b"; OfFile (RecentFile (mkURI (js "file:///c.txt")))])
            (mkRecentlyOpened [RecentFolder (mkURI (js "file:///a"))] []) /\
  history (after_call (addRecentlyOpened
                         [folder "file:///b";
                          OfFile (RecentFile (mkURI (js "file:///c.txt")))])
             (after_call (addRecentlyOpened [folder "file:///a"]) freshWorld)) =
  Some (mkRecentlyOpened [RecentFolder (mkURI (js "file:///b"));
                          RecentFolder (mkURI (js "file:///a"))]
                         [RecentFile (mkURI (js "file:///c.txt"))]).
Proof.
  assert (Hnd : NoDup (map (fun r => toString (recentUri r))
                         [folder "file:///b";
                          OfFile (RecentFile (mkURI (js "file:///c.txt")))])).
  { repeat constructor; cbn [In]; intros H;
      repeat (destruct H as [H | H]; [discriminate|]); exact H. }
  assert (Hu : untouched
                 (map recentUri
                    [folder "file:///b";
                     OfFile (RecentFile (mkURI (js "file:///c.txt")))])
                 (mkRecentlyOpened [RecentFolder (mkURI (js "file:///a"))] [])).
  { split; intros a Ha Hm; cbn [workspaces files In] in Ha.
    - destruct Ha as [<- | []]. cbn in Hm.
      repeat (destruct Hm as [Hm | Hm]; [discriminate|]). exact Hm.
    - destruct Ha. }
  split; [reflexivity|]. split; [exact Hnd|]. split; [exact Hu|].
  exact (addRecentlyOpened_evicts_nothing
           [folder "file:///b"; OfFile (RecentFile (mkURI (js "file:///c.txt")))]
           (after_call (addRecentlyOpened [folder "file:///a"]) freshWorld)
           (mkRecentlyOpened [RecentFolder (mkURI (js "file:///a"))] [])
           eq_refl Hnd Hu).
Defined.
